(** * Port congestion simulation: a shallow embedding of [port_simulation.py]

    The program drives a discrete-event simulation: an arrival process reads
    the rows of the arrival table and spawns one ship process per row; every
    ship process requests a berth, then a crane, waits for its unloading
    delay, leaves both and appends its dictionary of timestamps to the global
    list [results_data].

    The generators of the program are embedded as explicit frames (program
    point plus local variables) and the simulation environment as a record
    that is threaded through every operation.  The event loop, the resources
    and the processes follow the discrete-event library the program calls:
    an event queue ordered by (time, priority, event id), resources with a
    first-come first-served queue of requests, and processes resumed by the
    callbacks of the events they wait for. *)

From Stdlib Require Import ZArith Lia.
From stdpp Require Import base list sets.

Local Open Scope Z_scope.

(** ** Input and output data *)

(** One row of the arrival table ([pd.read_csv(input_file)]). *)
Record Row := mkRow {
  row_ship_id : Z;
  row_arrival_time_minutes : Z;
  row_cargo_containers : Z
}.

(** The dictionary [ship_data]: three keys are set when it is created, the
    four others are assigned one after the other; [None] is an absent key. *)
Record ShipData := mkShipData {
  ship_id : Z;
  cargo_containers : Z;
  time_arrived_port : Z;
  time_docked : option Z;
  time_crane_secured : option Z;
  time_unloading_complete : option Z;
  time_departed_port : option Z
}.

Definition set_time_docked (t : Z) (d : ShipData) : ShipData :=
  mkShipData (ship_id d) (cargo_containers d) (time_arrived_port d)
             (Some t) (time_crane_secured d) (time_unloading_complete d)
             (time_departed_port d).

Definition set_time_crane_secured (t : Z) (d : ShipData) : ShipData :=
  mkShipData (ship_id d) (cargo_containers d) (time_arrived_port d)
             (time_docked d) (Some t) (time_unloading_complete d)
             (time_departed_port d).

Definition set_time_unloading_complete (t : Z) (d : ShipData) : ShipData :=
  mkShipData (ship_id d) (cargo_containers d) (time_arrived_port d)
             (time_docked d) (time_crane_secured d) (Some t)
             (time_departed_port d).

Definition set_time_departed_port (t : Z) (d : ShipData) : ShipData :=
  mkShipData (ship_id d) (cargo_containers d) (time_arrived_port d)
             (time_docked d) (time_crane_secured d)
             (time_unloading_complete d) (Some t).

(** ** Virtual time *)

(** Times are the integers of the arrival table.  The only other value that
    reaches the event queue is the not-a-number that [max()] returns on an
    empty column; it compares false with everything. *)
Inductive vtime := Fin (t : Z) | NaN.

Definition vtime_eqb (a b : vtime) : bool :=
  match a, b with Fin x, Fin y => x =? y | _, _ => false end.

Definition vtime_ltb (a b : vtime) : bool :=
  match a, b with Fin x, Fin y => x <? y | _, _ => false end.

Definition vtime_leb (a b : vtime) : bool :=
  match a, b with Fin x, Fin y => x <=? y | _, _ => false end.

Definition vtime_add (a b : vtime) : vtime :=
  match a, b with Fin x, Fin y => Fin (x + y) | _, _ => NaN end.

Definition vtime_sub (a b : vtime) : vtime :=
  match a, b with Fin x, Fin y => Fin (x - y) | _, _ => NaN end.

(** [arrivals_df['arrival_time_minutes'].max()] *)
Definition series_max (l : list Z) : vtime :=
  match l with
  | [] => NaN
  | x :: l' => Fin (fold_left Z.max l' x)
  end.

(** ** Events, queue and processes *)

Inductive resource_id := Berths | Cranes.

Inductive proc_id := ArrivalProc | ShipProc (i : nat).

#[global] Instance resource_id_eq_dec : EqDecision resource_id.
Proof. solve_decision. Defined.

#[global] Instance proc_id_eq_dec : EqDecision proc_id.
Proof. solve_decision. Defined.

(** The events of the program, each with the callbacks it carries when it is
    processed: [Initialize] and [Timeout] resume the process that waits for
    them, a [Request] resumes the ship that asked for the resource, a
    [Release] makes the resource serve its queue ([_trigger_put]), the
    [Process] event of a finished generator has no callback and re-raises the
    generator's exception when it is not [ok], and [Until] stops the run. *)
Inductive event :=
| Initialize (p : proc_id)
| Timeout (p : proc_id)
| Request (r : resource_id) (i : nat)
| Release (r : resource_id) (i : nat)
| Process (p : proc_id) (ok : bool)
| Until.

#[global] Instance event_eq_dec : EqDecision event.
Proof. solve_decision. Defined.

Definition URGENT : nat := 0%nat.
Definition NORMAL : nat := 1%nat.

(** An entry [(time, priority, eid, event)] of the queue. *)
Record QItem := mkQItem {
  q_time : vtime;
  q_priority : nat;
  q_eid : nat;
  q_event : event
}.

(** Tuple comparison of two entries: the first component that differs
    decides.  Event ids are never equal, so events are not compared. *)
Definition item_ltb (a b : QItem) : bool :=
  if negb (vtime_eqb (q_time a) (q_time b)) then vtime_ltb (q_time a) (q_time b)
  else if negb (q_priority a =? q_priority b)%nat then (q_priority a <? q_priority b)%nat
  else (q_eid a <? q_eid b)%nat.

Fixpoint least (best : QItem) (q : list QItem) : QItem :=
  match q with
  | [] => best
  | x :: q' => least (if item_ltb x best then x else best) q'
  end.

Fixpoint remove_eid (e : nat) (q : list QItem) : list QItem :=
  match q with
  | [] => []
  | x :: q' => if (q_eid x =? e)%nat then q' else x :: remove_eid e q'
  end.

(** [heappop]: the least entry and the queue without it. *)
Definition heappop (q : list QItem) : option (QItem * list QItem) :=
  match q with
  | [] => None
  | x :: q' => let m := least x q' in Some (m, remove_eid (q_eid m) q)
  end.

(** A resource: its capacity, the requests that hold a unit ([users]) and
    the requests that wait ([put_queue]); a request is named by the index of
    the ship that made it. *)
Record Resource := mkResource {
  capacity : Z;
  users : list nat;
  put_queue : list nat
}.

(** Frame of a [ship_process] generator: where it is suspended, with its
    dictionary. *)
Inductive ship_gen :=
| GenCreated
| GenAtBerth (ship_data : ShipData)
| GenAtCrane (ship_data : ShipData)
| GenAtUnload (ship_data : ShipData)
| GenReturned
| GenRaised.

Record ShipFrame := mkShipFrame {
  sf_row : Row;
  sf_gen : ship_gen
}.

(** Frame of the [arrival_process] generator. *)
Inductive arrival_gen :=
| ArrCreated (rows : list Row)
| ArrAtTimeout (row : Row) (rest : list Row)
| ArrReturned
| ArrRaised.

(** ** History of the run *)

Inductive milestone :=
| ARRIVED | DOCKED | CRANE_SECURED | UNLOADING_COMPLETE | DEPARTED.

(** What the run did, in the order it did it: the timestamps written into a
    ship's dictionary, the units taken and given back, the dictionaries
    appended to the results.  The history is never read by the program. *)
Inductive action :=
| Stamp (i : nat) (m : milestone) (t : Z)
| Acquire (r : resource_id) (i : nat)
| Free (r : resource_id) (i : nat)
| Emit (i : nat).

(** ** The simulation state *)

Record World := mkWorld {
  now : Z;
  queue : list QItem;
  eid : nat;
  berths : Resource;
  cranes : Resource;
  arrival : arrival_gen;
  ships : list ShipFrame;
  results_data : list ShipData;
  trace : list action
}.

Definition set_now (t : Z) (w : World) : World :=
  mkWorld t (queue w) (eid w) (berths w) (cranes w) (arrival w) (ships w)
          (results_data w) (trace w).

Definition set_queue (q : list QItem) (w : World) : World :=
  mkWorld (now w) q (eid w) (berths w) (cranes w) (arrival w) (ships w)
          (results_data w) (trace w).

Definition set_eid (n : nat) (w : World) : World :=
  mkWorld (now w) (queue w) n (berths w) (cranes w) (arrival w) (ships w)
          (results_data w) (trace w).

Definition resource (r : resource_id) (w : World) : Resource :=
  match r with Berths => berths w | Cranes => cranes w end.

Definition set_resource (r : resource_id) (x : Resource) (w : World) : World :=
  match r with
  | Berths => mkWorld (now w) (queue w) (eid w) x (cranes w) (arrival w)
                      (ships w) (results_data w) (trace w)
  | Cranes => mkWorld (now w) (queue w) (eid w) (berths w) x (arrival w)
                      (ships w) (results_data w) (trace w)
  end.

Definition set_arrival (a : arrival_gen) (w : World) : World :=
  mkWorld (now w) (queue w) (eid w) (berths w) (cranes w) a (ships w)
          (results_data w) (trace w).

Definition set_ships (s : list ShipFrame) (w : World) : World :=
  mkWorld (now w) (queue w) (eid w) (berths w) (cranes w) (arrival w) s
          (results_data w) (trace w).

Definition set_results_data (r : list ShipData) (w : World) : World :=
  mkWorld (now w) (queue w) (eid w) (berths w) (cranes w) (arrival w)
          (ships w) r (trace w).

Definition record (a : action) (w : World) : World :=
  mkWorld (now w) (queue w) (eid w) (berths w) (cranes w) (arrival w)
          (ships w) (results_data w) (trace w ++ [a]).

(** ** The environment *)

(** [Environment.schedule]: push [(now + delay, priority, next eid, event)]. *)
Definition schedule (ev : event) (priority : nat) (delay : vtime) (w : World) : World :=
  set_eid (S (eid w))
    (set_queue (queue w ++ [mkQItem (vtime_add (Fin (now w)) delay) priority (eid w) ev]) w).

(** [Event.succeed]: the event is scheduled now with normal priority. *)
Definition succeed (ev : event) (w : World) : World :=
  schedule ev NORMAL (Fin 0) w.

(** ** Resources *)

(** [Resource._do_put] on the request of ship [i]; the result tells whether
    the request was triggered. *)
Definition _do_put (r : resource_id) (i : nat) (w : World) : World * bool :=
  let x := resource r w in
  if Z.of_nat (length (users x)) <? capacity x then
    let w1 := set_resource r (mkResource (capacity x) (users x ++ [i]) (put_queue x)) w in
    (succeed (Request r i) (record (Acquire r i) w1), true)
  else (w, false).

(** [BaseResource._trigger_put]: [_do_put] returns nothing, so the loop
    leaves after the request at the head of the queue; that request is taken
    off the queue when it was triggered. *)
Definition _trigger_put (r : resource_id) (w : World) : World :=
  match put_queue (resource r w) with
  | [] => w
  | i :: rest =>
      let (w1, triggered) := _do_put r i w in
      if triggered then
        let x := resource r w1 in
        set_resource r (mkResource (capacity x) (users x) rest) w1
      else w1
  end.

(** [resource.request()] made by ship [i]: the request joins the queue and
    the queue is served. *)
Definition request (r : resource_id) (i : nat) (w : World) : World :=
  let x := resource r w in
  _trigger_put r (set_resource r (mkResource (capacity x) (users x) (put_queue x ++ [i])) w).

(** [list.remove]: the first occurrence goes; an absent element is the
    [ValueError] that [_do_get] swallows. *)
Fixpoint list_remove (i : nat) (l : list nat) : list nat :=
  match l with
  | [] => []
  | x :: l' => if (x =? i)%nat then l' else x :: list_remove i l'
  end.

(** [resource.release(request)], called when a [with] block is left: the
    release joins the queue of releases and is served at once ([_do_get]
    removes the request from the users and the release succeeds), so that
    queue is empty again when the call returns and is not kept in the state. *)
Definition release (r : resource_id) (i : nat) (w : World) : World :=
  let x := resource r w in
  let w1 := set_resource r (mkResource (capacity x) (list_remove i (users x)) (put_queue x)) w in
  succeed (Release r i) (record (Free r i) w1).

(** ** The processes *)

Inductive exn :=
| ValueError_negative_delay
| ValueError_capacity
| ValueError_until
| RuntimeError_no_events.

Definition set_ship_gen (i : nat) (g : ship_gen) (w : World) : World :=
  match ships w !! i with
  | Some fr => set_ships (<[i := mkShipFrame (sf_row fr) g]> (ships w)) w
  | None => w
  end.

(** A generator that ends: its [Process] event is scheduled, [ok] telling
    whether it returned or raised. *)
Definition finish (p : proc_id) (ok : bool) (w : World) : World :=
  schedule (Process p ok) NORMAL (Fin 0) w.

Section Processes.

(** The parameter [unload_time] of [run_simulation], seen by the inner
    function [ship_process]. *)
Variable unload_time : Z.

(** [ship_process], resumed at the point where frame [i] is suspended. *)
Definition ship_process (i : nat) (w : World) : World :=
  match ships w !! i with
  | None => w
  | Some fr =>
      let name := row_ship_id (sf_row fr) in
      let cargo := row_cargo_containers (sf_row fr) in
      match sf_gen fr with
      | GenCreated =>
          let time_arrived := now w in
          let ship_data := mkShipData name cargo time_arrived None None None None in
          let w := record (Stamp i ARRIVED time_arrived) w in
          let w := request Berths i w in
          set_ship_gen i (GenAtBerth ship_data) w
      | GenAtBerth ship_data =>
          let ship_data := set_time_docked (now w) ship_data in
          let w := record (Stamp i DOCKED (now w)) w in
          let w := request Cranes i w in
          set_ship_gen i (GenAtCrane ship_data) w
      | GenAtCrane ship_data =>
          let ship_data := set_time_crane_secured (now w) ship_data in
          let w := record (Stamp i CRANE_SECURED (now w)) w in
          let unloading_duration := cargo * unload_time in
          if unloading_duration <? 0 then
            (* env.timeout raises; both with blocks are left on the way out *)
            let w := release Cranes i w in
            let w := release Berths i w in
            finish (ShipProc i) false (set_ship_gen i GenRaised w)
          else
            let w := schedule (Timeout (ShipProc i)) NORMAL (Fin unloading_duration) w in
            set_ship_gen i (GenAtUnload ship_data) w
      | GenAtUnload ship_data =>
          let ship_data := set_time_unloading_complete (now w) ship_data in
          let w := record (Stamp i UNLOADING_COMPLETE (now w)) w in
          let w := release Cranes i w in
          let w := release Berths i w in
          let ship_data := set_time_departed_port (now w) ship_data in
          let w := record (Stamp i DEPARTED (now w)) w in
          let w := record (Emit i) (set_results_data (results_data w ++ [ship_data]) w) in
          finish (ShipProc i) true (set_ship_gen i GenReturned w)
      | GenReturned | GenRaised => w
      end
  end.

(** The [for] loop of [arrival_process] from the top, with the rows that are
    left: it runs until the next [yield], the end of the table or the
    [ValueError] of a negative delay. *)
Definition arrival_loop (rows : list Row) (w : World) : World :=
  match rows with
  | [] => finish ArrivalProc true (set_arrival ArrReturned w)
  | row :: rest =>
      let delay := row_arrival_time_minutes row - now w in
      if delay <? 0 then finish ArrivalProc false (set_arrival ArrRaised w)
      else set_arrival (ArrAtTimeout row rest)
             (schedule (Timeout ArrivalProc) NORMAL (Fin delay) w)
  end.

(** [env.process(generator)]: the new process is started by an urgent
    [Initialize] event. *)
Definition spawn_ship (row : Row) (w : World) : World :=
  let i := length (ships w) in
  schedule (Initialize (ShipProc i)) URGENT (Fin 0)
    (set_ships (ships w ++ [mkShipFrame row GenCreated]) w).

Definition arrival_process (w : World) : World :=
  match arrival w with
  | ArrCreated rows => arrival_loop rows w
  | ArrAtTimeout row rest => arrival_loop rest (spawn_ship row w)
  | ArrReturned | ArrRaised => w
  end.

(** [Process._resume] *)
Definition resume (p : proc_id) (w : World) : World :=
  match p with
  | ArrivalProc => arrival_process w
  | ShipProc i => ship_process i w
  end.

(** ** The event loop *)

Inductive step_result :=
| Stepped (w : World)
| StopSimulation (w : World)
| Raise (e : exn) (w : World)
| EmptySchedule.

(** The clock after an entry was popped.  Only the stop event can carry a
    time that is not a number, and nothing reads the clock after it. *)
Definition clock_at (t : vtime) (w : World) : Z :=
  match t with Fin z => z | NaN => now w end.

(** [Environment.step]: pop the next entry, set the clock, run the callbacks
    of the event. *)
Definition step (w : World) : step_result :=
  match heappop (queue w) with
  | None => EmptySchedule
  | Some (it, q') =>
      let w := set_now (clock_at (q_time it) w) (set_queue q' w) in
      match q_event it with
      | Initialize p => Stepped (resume p w)
      | Timeout p => Stepped (resume p w)
      | Request r i => Stepped (resume (ShipProc i) w)
      | Release r i => Stepped (_trigger_put r w)
      | Process p true => Stepped w
      | Process p false => Raise ValueError_negative_delay w
      | Until => StopSimulation w
      end
  end.

Inductive run_result :=
| Returned (w : World)
| Raised (e : exn) (w : World)
| OutOfFuel (w : World).

(** [while True: self.step()] *)
Fixpoint run_loop (fuel : nat) (w : World) : run_result :=
  match fuel with
  | O => OutOfFuel w
  | S fuel' =>
      match step w with
      | Stepped w' => run_loop fuel' w'
      | StopSimulation w' => Returned w'
      | Raise e w' => Raised e w'
      | EmptySchedule => Raised RuntimeError_no_events w
      end
  end.

(** The number of events the run can still process: the entries of the
    queue, the requests that wait for a unit, and what every frame will
    still schedule.  Every step lowers it ([step_lowers_budget] below), so
    the loop is unrolled that many times. *)
Definition ship_budget (g : ship_gen) : nat :=
  match g with
  | GenCreated => 6
  | GenAtBerth _ => 5
  | GenAtCrane _ => 4
  | GenAtUnload _ => 3
  | GenReturned | GenRaised => 0
  end.

Definition arrival_budget (a : arrival_gen) : nat :=
  match a with
  | ArrCreated rows => 8 * length rows + 1
  | ArrAtTimeout _ rest => 8 * length rest + 8
  | ArrReturned | ArrRaised => 0
  end.

Definition budget (w : World) : nat :=
  (length (queue w) + length (put_queue (berths w)) + length (put_queue (cranes w))
   + arrival_budget (arrival w)
   + sum_list_with (fun fr => ship_budget (sf_gen fr)) (ships w))%nat.

(** [Environment.run(until)] with a number for [until]. *)
Definition env_run (until : vtime) (w : World) : run_result :=
  if vtime_leb until (Fin (now w)) then Raised ValueError_until w
  else
    let w := schedule Until URGENT (vtime_sub until (Fin (now w))) w in
    run_loop (S (budget w)) w.

End Processes.

(** ** The program *)

(** One row of the table that [calculate_and_save_results] writes: the
    dictionary and the three derived columns. *)
Record KpiRow := mkKpiRow {
  kpi_data : ShipData;
  wait_time_for_berth : option Z;
  wait_time_for_crane : option Z;
  turnaround_time : option Z
}.

Definition opt_sub (a b : option Z) : option Z :=
  match a, b with Some x, Some y => Some (x - y) | _, _ => None end.

Definition kpi_row (d : ShipData) : KpiRow :=
  mkKpiRow d
    (opt_sub (time_docked d) (Some (time_arrived_port d)))
    (opt_sub (time_crane_secured d) (time_docked d))
    (opt_sub (time_departed_port d) (Some (time_arrived_port d))).

(** [calculate_and_save_results]: nothing is written for an empty list. *)
Definition calculate_and_save_results (results : list ShipData) : option (list KpiRow) :=
  match results with
  | [] => None
  | _ => Some (kpi_row <$> results)
  end.

Inductive outcome :=
| Completed (w : World) (saved : option (list KpiRow))
| Crashed (e : exn) (w : World).

(** [list.clear()] *)
Definition clear (l : list ShipData) : list ShipData := [].

(** The state after [simpy.Environment()] and
    [Port(env, num_berths, num_cranes)], with the global list [results]. *)
Definition initial_world (num_berths num_cranes : Z) (arrivals_df : list Row)
    (results : list ShipData) : World :=
  mkWorld 0 [] 0%nat (mkResource num_berths [] []) (mkResource num_cranes [] [])
          (ArrCreated arrivals_df) [] results [].

(** [run_simulation] once the table was read.  [results_data] is the global
    list as the previous run left it. *)
Definition run_simulation (num_berths num_cranes unload_time : Z)
    (arrivals_df : list Row) (previous_results : list ShipData) : outcome :=
  let w := initial_world num_berths num_cranes arrivals_df (clear previous_results) in
  if (num_berths <=? 0) || (num_cranes <=? 0) then Crashed ValueError_capacity w
  else
    let w := schedule (Initialize ArrivalProc) URGENT (Fin 0) w in
    let simulation_runtime :=
      vtime_add (series_max (row_arrival_time_minutes <$> arrivals_df)) (Fin 20000) in
    match env_run unload_time simulation_runtime w with
    | Returned w' => Completed w' (calculate_and_save_results (results_data w'))
    | Raised e w' => Crashed e w'
    | OutOfFuel w' => Crashed RuntimeError_no_events w'
    end.

Definition results_of (o : outcome) : list ShipData :=
  match o with Completed w _ => results_data w | Crashed _ w => results_data w end.

Definition world_of (o : outcome) : World :=
  match o with Completed w _ => w | Crashed _ w => w end.


(** Rows the specification calls valid: a positive cargo size. *)
Definition valid_rows (rows : list Row) : list Row :=
  filter (fun r => 0 < row_cargo_containers r) rows.

(** * Invariants of the run *)

(** The process an event resumes when it is processed. *)
Definition target (ev : event) : option proc_id :=
  match ev with
  | Initialize p => Some p
  | Timeout p => Some p
  | Request _ i => Some (ShipProc i)
  | _ => None
  end.

(** Events scheduled with no delay: they are processed before the clock
    moves. *)
Definition instant (ev : event) : bool :=
  match ev with
  | Timeout _ => false
  | Until => false
  | _ => true
  end.

Definition events (w : World) : list event := q_event <$> queue w.

(** Everything that will resume a process: the entries of the event queue
    that target one, and the requests that wait in a resource. *)
Definition wake_list (w : World) : list proc_id :=
  omap target (events w)
  ++ (ShipProc <$> put_queue (berths w))
  ++ (ShipProc <$> put_queue (cranes w)).

Definition wake_of (q : list QItem) (pb pc : list nat) : list proc_id :=
  omap target (q_event <$> q) ++ (ShipProc <$> pb) ++ (ShipProc <$> pc).

(** The entries of the queue have distinct ids below the next id, are not
    in the past, and those scheduled without delay are due now. *)
Definition queue_ok (t : Z) (next : nat) (q : list QItem) : Prop :=
  NoDup (q_eid <$> q)
  /\ (forall it, it ∈ q -> (q_eid it < next)%nat)
  /\ (forall it, it ∈ q -> q_event it <> Until -> exists t', q_time it = Fin t' /\ t <= t')
  /\ (forall it, it ∈ q -> instant (q_event it) = true -> q_time it = Fin t).

Definition ship_of (a : action) : nat :=
  match a with
  | Stamp i _ _ => i
  | Acquire _ i => i
  | Free _ i => i
  | Emit i => i
  end.

(** The part of the history that belongs to ship [j]. *)
Definition acts (j : nat) (tr : list action) : list action :=
  filter (fun a => ship_of a = j) tr.

(** The history of a ship up to each point of its life. *)
Definition tr_arrived (j : nat) (a : Z) : list action :=
  [Stamp j ARRIVED a].
Definition tr_docked (j : nat) (a b : Z) : list action :=
  tr_arrived j a ++ [Acquire Berths j; Stamp j DOCKED b].
Definition tr_secured (j : nat) (a b c : Z) : list action :=
  tr_docked j a b ++ [Acquire Cranes j; Stamp j CRANE_SECURED c].
Definition tr_leave (j : nat) : list action :=
  [Free Cranes j; Free Berths j].
Definition tr_done (j : nat) (a b c e : Z) : list action :=
  tr_secured j a b c ++ Stamp j UNLOADING_COMPLETE e :: tr_leave j
    ++ [Stamp j DEPARTED e; Emit j].
Definition tr_failed (j : nat) (a b c : Z) : list action :=
  tr_secured j a b c ++ tr_leave j.

(** [l] ends with [block]. *)
Definition ends_with {A} (block l : list A) : Prop :=
  exists l', l = l' ++ block.

(** What must come just before an action for the action to be allowed. *)
Definition allowed (tr : list action) (a : action) : Prop :=
  match a with
  | Free Berths i =>
      ends_with [Free Cranes i] tr
      /\ Acquire Berths i ∈ tr /\ Free Berths i ∉ tr
  | Stamp i DEPARTED t =>
      ends_with (Stamp i UNLOADING_COMPLETE t :: tr_leave i) tr
  | Emit i =>
      exists t, ends_with (Stamp i UNLOADING_COMPLETE t :: tr_leave i
                            ++ [Stamp i DEPARTED t]) tr
  | _ => True
  end.

Inductive trace_ok : list action -> Prop :=
| trace_ok_nil : trace_ok []
| trace_ok_snoc tr a : trace_ok tr -> allowed tr a -> trace_ok (tr ++ [a]).

Definition returned_count (l : list ShipFrame) : nat :=
  sum_list_with
    (fun fr => match sf_gen fr with GenReturned => 1%nat | _ => 0%nat end) l.

Definition is_release (r : resource_id) (ev : event) : bool :=
  match ev, r with
  | Release Berths _, Berths => true
  | Release Cranes _, Cranes => true
  | _, _ => false
  end.

(** Releases of [r] that are scheduled and not processed yet. *)
Definition pending_releases (r : resource_id) (q : list QItem) : nat :=
  length (filter (fun it => is_release r (q_event it) = true) q).

(** What ship [j] can see of a change of the world: the clock does not go
    back, its own history is untouched and nothing that will wake it is
    lost or added. *)
Definition ext_for (j : nat) (w w' : World) : Prop :=
  now w <= now w'
  /\ acts j (trace w') = acts j (trace w)
  /\ (forall it, it ∈ queue w -> target (q_event it) = Some (ShipProc j) -> it ∈ queue w')
  /\ (forall r, j ∈ put_queue (resource r w) -> j ∈ put_queue (resource r w'))
  /\ (ShipProc j ∉ wake_list w -> ShipProc j ∉ wake_list w').

(** The world after [_trigger_put] has served the request of ship [j] at
    the head of the queue of [r]. *)
Definition granted (r : resource_id) (j : nat) (rest : list nat) (w : World) : World :=
  let x := resource r w in
  set_resource r (mkResource (capacity x) (users x ++ [j]) rest)
    (schedule (Request r j) NORMAL (Fin 0) (record (Acquire r j) w)).

Definition arr_times (rows : list Row) : list Z :=
  row_arrival_time_minutes <$> rows.

(** [l] never goes down and starts at [lo] or above. *)
Fixpoint ascending (lo : Z) (l : list Z) : Prop :=
  match l with
  | [] => True
  | x :: l' => lo <= x /\ ascending x l'
  end.

(** Sorted by arrival time: no element is above the next one. *)
Definition nondecreasing (l : list Z) : Prop :=
  forall i x y, l !! i = Some x -> l !! S i = Some y -> x <= y.

(** The arrival time of the last ship that was spawned, 0 before the
    first: the clock of the arrival process. *)
Definition last_time (l : list ShipFrame) : Z :=
  List.last (arr_times (sf_row <$> l)) 0.

(** The world once the entry [it] was popped and the clock set. *)
Definition popped (it : QItem) (q' : list QItem) (w : World) : World :=
  set_now (clock_at (q_time it) w) (set_queue q' w).

(** The time at which [run_simulation] schedules the stop event. *)
Definition horizon_of (rows : list Row) : vtime :=
  vtime_add (Fin 0)
    (vtime_sub (vtime_add (series_max (row_arrival_time_minutes <$> rows)) (Fin 20000))
               (Fin 0)).

(** The world in which the loop of [run_simulation] starts. *)
Definition start_world (num_berths num_cranes : Z) (rows : list Row) : World :=
  schedule Until URGENT
    (vtime_sub (vtime_add (series_max (row_arrival_time_minutes <$> rows)) (Fin 20000))
               (Fin 0))
    (schedule (Initialize ArrivalProc) URGENT (Fin 0)
       (initial_world num_berths num_cranes rows [])).

(** [w'] shows what [w] shows: the same results, history, frames and
    resources. *)
Definition same_obs (w w' : World) : Prop :=
  results_data w' = results_data w /\ trace w' = trace w
  /\ ships w' = ships w /\ arrival w' = arrival w
  /\ berths w' = berths w /\ cranes w' = cranes w.

(** ** Work and time *)

(** The unloading time of the ship of a row. *)
Definition work (unload_time : Z) (row : Row) : Z :=
  row_cargo_containers row * unload_time.

(** The unloading time of a ship whose unloading timeout was created. *)
Definition started (unload_time : Z) (fr : ShipFrame) : Z :=
  match sf_gen fr with
  | GenAtUnload _ | GenReturned | GenRaised => work unload_time (sf_row fr)
  | _ => 0
  end.

Definition started_work (unload_time : Z) (l : list ShipFrame) : Z :=
  foldr (fun fr s => started unload_time fr + s) 0 l.

(** The unloading time of the whole table. *)
Definition total_work (unload_time : Z) (rows : list Row) : Z :=
  foldr (fun row s => work unload_time row + s) 0 rows.

Definition free_units (x : Resource) : Z :=
  capacity x - Z.of_nat (length (users x)).

(** The requests in the queue that a free unit could serve. *)
Definition wanting (x : Resource) : Z :=
  Z.min (Z.of_nat (length (put_queue x))) (free_units x).

(** No request waits for a unit that is free, unless a release that will
    serve the queue is still to be processed. *)
Definition slack_ok (w : World) : Prop :=
  forall r,
    0 < capacity (resource r w)
    /\ wanting (resource r w) <= Z.of_nat (pending_releases r (queue w)).

(** The clock and every entry of the queue but the stop event are at [B]
    or before. *)
Definition bounded (B : Z) (w : World) : Prop :=
  now w <= B
  /\ forall it, it ∈ queue w -> q_event it <> Until ->
       exists t, q_time it = Fin t /\ t <= B.

Definition Live (B : Z) (w : World) : Prop := slack_ok w /\ bounded B w.

(** The port keeps working: nothing is scheduled later than the latest
    arrival [T] plus the unloading times that were started. *)
Definition Busy (unload_time T : Z) (w : World) : Prop :=
  Live (T + started_work unload_time (ships w)) w.

(** The queue holds nothing but the stop event. *)
Definition quiet (w : World) : Prop := forall ev, ev ∈ events w -> ev = Until.

(** Every generator of a ship has returned. *)
Definition all_returned (l : list ShipFrame) : Prop :=
  forall fr, fr ∈ l -> sf_gen fr = GenReturned.

Section Invariant.

Variable unload_time : Z.
Variable arrivals_df : list Row.
Variable horizon : vtime.

(** A dictionary in the results: all keys are set, the timestamps are in
    the order of the ship's life, the ship left when its unloading ended,
    and the unloading took the time of its cargo. *)
Definition record_ok (d : ShipData) : Prop :=
  exists b c e,
    time_docked d = Some b /\ time_crane_secured d = Some c
    /\ time_unloading_complete d = Some e /\ time_departed_port d = Some e
    /\ time_arrived_port d <= b /\ b <= c /\ c <= e
    /\ e = c + cargo_containers d * unload_time.

Definition scheduled (ev : event) (t : vtime) (w : World) : Prop :=
  exists it, it ∈ queue w /\ q_event it = ev /\ q_time it = t.

(** A ship that waits for resource [r]: either its request is in the queue
    of the resource, or it was granted and the request event is scheduled. *)
Definition waiting (r : resource_id) (j : nat) (before : list action) (w : World) : Prop :=
  (acts j (trace w) = before /\ j ∈ put_queue (resource r w))
  \/ (acts j (trace w) = before ++ [Acquire r j] /\ Request r j ∈ events w).

(** What holds of ship [j] between two steps of the loop. *)
Definition ship_inv (w : World) (j : nat) (fr : ShipFrame) : Prop :=
  let id := row_ship_id (sf_row fr) in
  let cargo := row_cargo_containers (sf_row fr) in
  match sf_gen fr with
  | GenCreated =>
      acts j (trace w) = [] /\ Initialize (ShipProc j) ∈ events w
  | GenAtBerth d =>
      exists a, d = mkShipData id cargo a None None None None /\ a <= now w
        /\ waiting Berths j (tr_arrived j a) w
  | GenAtCrane d =>
      exists a b, d = mkShipData id cargo a (Some b) None None None
        /\ a <= b /\ b <= now w
        /\ waiting Cranes j (tr_docked j a b) w
  | GenAtUnload d =>
      exists a b c, d = mkShipData id cargo a (Some b) (Some c) None None
        /\ a <= b /\ b <= c /\ c <= now w
        /\ acts j (trace w) = tr_secured j a b c
        /\ scheduled (Timeout (ShipProc j)) (Fin (c + cargo * unload_time)) w
  | GenReturned =>
      (ShipProc j ∉ wake_list w)
      /\ exists a b c e, acts j (trace w) = tr_done j a b c e
  | GenRaised =>
      (ShipProc j ∉ wake_list w)
      /\ cargo * unload_time < 0
      /\ exists a b c, acts j (trace w) = tr_failed j a b c
  end.

(** What holds of the arrival process between two steps. *)
Definition arrival_inv (w : World) : Prop :=
  match arrival w with
  | ArrCreated rows =>
      rows = arrivals_df /\ ships w = []
      /\ scheduled (Initialize ArrivalProc) (Fin 0) w
  | ArrAtTimeout row rest =>
      arrivals_df = (sf_row <$> ships w) ++ row :: rest
      /\ ascending 0 (arr_times ((sf_row <$> ships w) ++ [row]))
      /\ scheduled (Timeout ArrivalProc) (Fin (row_arrival_time_minutes row)) w
  | ArrReturned =>
      arrivals_df = sf_row <$> ships w
      /\ ascending 0 (arr_times arrivals_df)
      /\ ArrivalProc ∉ wake_list w
  | ArrRaised =>
      (exists row rest,
          arrivals_df = (sf_row <$> ships w) ++ row :: rest
          /\ ascending 0 (arr_times (sf_row <$> ships w))
          /\ row_arrival_time_minutes row < last_time (ships w))
      /\ ArrivalProc ∉ wake_list w
  end.

(** A failure is scheduled only for a generator that raised. *)
Definition fail_ok (p : proc_id) (w : World) : Prop :=
  match p with
  | ArrivalProc => arrival w = ArrRaised
  | ShipProc i => exists fr, ships w !! i = Some fr /\ sf_gen fr = GenRaised
  end.

(** While the failure of the arrival process is waiting to be processed
    the clock stays where the process raised. *)
Definition raised_ok (w : World) : Prop :=
  arrival w = ArrRaised ->
  Process ArrivalProc false ∈ events w /\ now w <= last_time (ships w).

(** What is known of ship [i] when the event [it] that resumes it has been
    popped: the frame is at a [yield], the request it waited for was
    granted, the timeout it waited for has come. *)
Definition resumable (w : World) (i : nat) (fr : ShipFrame) (it : QItem) : Prop :=
  let id := row_ship_id (sf_row fr) in
  let cargo := row_cargo_containers (sf_row fr) in
  match sf_gen fr with
  | GenCreated => acts i (trace w) = []
  | GenAtBerth d =>
      exists a, d = mkShipData id cargo a None None None None /\ a <= now w
        /\ acts i (trace w) = tr_arrived i a ++ [Acquire Berths i]
  | GenAtCrane d =>
      exists a b, d = mkShipData id cargo a (Some b) None None None
        /\ a <= b /\ b <= now w
        /\ acts i (trace w) = tr_docked i a b ++ [Acquire Cranes i]
  | GenAtUnload d =>
      exists a b c, d = mkShipData id cargo a (Some b) (Some c) None None
        /\ a <= b /\ b <= c /\ c <= now w
        /\ acts i (trace w) = tr_secured i a b c
        /\ q_time it = Fin (c + cargo * unload_time)
  | GenReturned => False
  | GenRaised => False
  end.

(** What is known of the arrival process when the event [it] that resumes
    it has been popped. *)
Definition arrival_resumable (w : World) (it : QItem) : Prop :=
  match arrival w with
  | ArrCreated rows =>
      rows = arrivals_df /\ ships w = [] /\ q_time it = Fin 0
  | ArrAtTimeout row rest =>
      arrivals_df = (sf_row <$> ships w) ++ row :: rest
      /\ ascending 0 (arr_times ((sf_row <$> ships w) ++ [row]))
      /\ q_time it = Fin (row_arrival_time_minutes row)
  | ArrReturned => False
  | ArrRaised => False
  end.

(** The invariant.  [run] is the process that is being resumed, if any:
    its event has left the queue and its frame is not settled until it
    yields again. *)
Record GInv (run : option proc_id) (w : World) : Prop := mkGInv {
  g_eids : NoDup (q_eid <$> queue w);
  g_eid_lt : forall it, it ∈ queue w -> (q_eid it < eid w)%nat;
  g_clock : forall it, it ∈ queue w -> q_event it <> Until ->
            exists t, q_time it = Fin t /\ now w <= t;
  g_instant : forall it, it ∈ queue w -> instant (q_event it) = true ->
              q_time it = Fin (now w);
  g_wake : NoDup (wake_list w);
  g_wake_lt : forall j, ShipProc j ∈ wake_list w -> (j < length (ships w))%nat;
  g_run : forall p, run = Some p -> p ∉ wake_list w;
  g_acts : forall j, (length (ships w) <= j)%nat -> acts j (trace w) = [];
  g_users : forall r, NoDup (users (resource r w))
            /\ forall j, j ∈ users (resource r w)
                 <-> (Acquire r j ∈ trace w /\ Free r j ∉ trace w);
  g_results : forall d, d ∈ results_data w -> record_ok d;
  g_emitted : length (results_data w) = returned_count (ships w);
  g_trace : trace_ok (trace w);
  g_ships : forall j fr, ships w !! j = Some fr -> run <> Some (ShipProc j) ->
            ship_inv w j fr;
  g_arrival : run <> Some ArrivalProc -> arrival_inv w;
  g_until : Until ∈ events w;
  g_fail : forall it p, it ∈ queue w -> q_event it = Process p false -> fail_ok p w;
  g_raised : run <> Some ArrivalProc -> raised_ok w;
  g_horizon : forall it, it ∈ queue w -> q_event it = Until -> q_time it = horizon
}.

End Invariant.

Arguments g_eids {_ _ _ _ _} _.
Arguments g_eid_lt {_ _ _ _ _} _.
Arguments g_clock {_ _ _ _ _} _.
Arguments g_instant {_ _ _ _ _} _.
Arguments g_wake {_ _ _ _ _} _.
Arguments g_wake_lt {_ _ _ _ _} _.
Arguments g_run {_ _ _ _ _} _.
Arguments g_acts {_ _ _ _ _} _.
Arguments g_users {_ _ _ _ _} _.
Arguments g_results {_ _ _ _ _} _.
Arguments g_emitted {_ _ _ _ _} _.
Arguments g_trace {_ _ _ _ _} _.
Arguments g_ships {_ _ _ _ _} _.
Arguments g_arrival {_ _ _ _ _} _.
Arguments g_until {_ _ _ _ _} _.
Arguments g_fail {_ _ _ _ _} _.
Arguments g_raised {_ _ _ _ _} _.
Arguments g_horizon {_ _ _ _ _} _.

(** * Lemmas *)

(** ** The event queue *)

Lemma least_in (q : list QItem) (best : QItem) : least best q ∈ best :: q.
Proof.
  revert best. induction q as [|x q IH]; intros best; simpl.
  - apply list_elem_of_here.
  - specialize (IH (if item_ltb x best then x else best)).
    apply elem_of_cons in IH as [-> | IH].
    + destruct (item_ltb x best); set_solver.
    + set_solver.
Qed.

Lemma least_nan (q : list QItem) (best : QItem) :
  q_time best = NaN -> least best q = best.
Proof.
  intros Hb. induction q as [|x q IH]; simpl; [reflexivity|].
  unfold item_ltb. rewrite Hb.
  destruct (q_time x); simpl; exact IH.
Qed.

Lemma item_ltb_fin_time (x y : QItem) (tx ty : Z) :
  q_time x = Fin tx -> q_time y = Fin ty ->
  (item_ltb x y = true -> tx <= ty) /\ (item_ltb x y = false -> ty <= tx).
Proof.
  intros Hx Hy. unfold item_ltb. rewrite Hx, Hy. simpl.
  destruct (tx =? ty) eqn:E; simpl.
  - apply Z.eqb_eq in E. lia.
  - apply Z.eqb_neq in E. destruct (tx <? ty) eqn:E2; [apply Z.ltb_lt in E2|apply Z.ltb_ge in E2]; split; intros; try discriminate; lia.
Qed.

(** The entry [least] picks is not later than any other entry. *)
Lemma least_min (q : list QItem) (best : QItem) (tm : Z) :
  q_time (least best q) = Fin tm ->
  forall y ty, y ∈ best :: q -> q_time y = Fin ty -> tm <= ty.
Proof.
  revert best. induction q as [|x q IH]; intros best Hm y ty Hy Hty; simpl in *.
  - apply list_elem_of_singleton in Hy as ->. rewrite Hm in Hty. injection Hty as ->. lia.
  - destruct (q_time best) as [tb|] eqn:Hb.
    2:{ assert (item_ltb x best = false) as E.
        { unfold item_ltb. rewrite Hb. destruct (q_time x); reflexivity. }
        rewrite E in Hm. rewrite (least_nan q best Hb) in Hm. congruence. }
    destruct (item_ltb x best) eqn:E.
    + assert (exists tx, q_time x = Fin tx) as [tx Hx].
      { unfold item_ltb in E. destruct (q_time x); [eauto|]. simpl in E. discriminate. }
      pose proof (item_ltb_fin_time x best tx tb Hx Hb) as [H1 _].
      specialize (H1 E).
      assert (tm <= tx) by (apply (IH x Hm x tx); [apply list_elem_of_here|exact Hx]).
      apply elem_of_cons in Hy as [-> | Hy].
      * rewrite Hb in Hty. injection Hty as <-. lia.
      * apply (IH x Hm y ty); [|exact Hty].
        apply elem_of_cons in Hy as [-> | Hy]; set_solver.
    + assert (tm <= tb) by (apply (IH best Hm best tb); [apply list_elem_of_here|exact Hb]).
      apply elem_of_cons in Hy as [-> | Hy].
      * rewrite Hb in Hty. injection Hty as <-. lia.
      * apply elem_of_cons in Hy as [-> | Hy].
        -- pose proof (item_ltb_fin_time x best ty tb Hty Hb) as [_ H2].
           specialize (H2 E). lia.
        -- apply (IH best Hm y ty); [set_solver|exact Hty].
Qed.

Lemma remove_eid_perm (q : list QItem) (m : QItem) :
  NoDup (q_eid <$> q) -> m ∈ q -> q ≡ₚ m :: remove_eid (q_eid m) q.
Proof.
  induction q as [|x q IH]; intros Hnd Hm; [inversion Hm|].
  simpl. rewrite fmap_cons in Hnd. apply NoDup_cons in Hnd as [Hx Hnd].
  destruct (q_eid x =? q_eid m)%nat eqn:E.
  - apply Nat.eqb_eq in E.
    apply elem_of_cons in Hm as [-> | Hm]; [reflexivity|].
    exfalso. apply Hx. rewrite E. apply list_elem_of_fmap_2. exact Hm.
  - apply Nat.eqb_neq in E.
    apply elem_of_cons in Hm as [-> | Hm]; [congruence|].
    rewrite (IH Hnd Hm) at 1. apply Permutation_swap.
Qed.

Lemma remove_eid_length (q : list QItem) (m : QItem) :
  m ∈ q -> length q = S (length (remove_eid (q_eid m) q)).
Proof.
  induction q as [|x q IH]; intros Hm; [inversion Hm|].
  simpl. destruct (q_eid x =? q_eid m)%nat eqn:E; [reflexivity|].
  apply Nat.eqb_neq in E.
  apply elem_of_cons in Hm as [-> | Hm]; [congruence|].
  simpl. f_equal. apply IH, Hm.
Qed.

Lemma remove_eid_subseteq (q : list QItem) (e : nat) (x : QItem) :
  x ∈ remove_eid e q -> x ∈ q.
Proof.
  induction q as [|y q IH]; simpl; [auto|].
  destruct (q_eid y =? e)%nat; [set_solver|].
  intros [-> | H]%elem_of_cons; set_solver.
Qed.

Lemma heappop_in (q q' : list QItem) (m : QItem) :
  heappop q = Some (m, q') -> m ∈ q.
Proof.
  destruct q as [|x q]; simpl; [discriminate|].
  intros [= <- _]. apply least_in.
Qed.

Lemma heappop_length (q q' : list QItem) (m : QItem) :
  heappop q = Some (m, q') -> length q = S (length q').
Proof.
  intros H. pose proof (heappop_in _ _ _ H) as Hin.
  destruct q as [|x q]; simpl in H; [discriminate|].
  injection H as <- <-. apply (remove_eid_length (x :: q)), Hin.
Qed.

Lemma heappop_perm (q q' : list QItem) (m : QItem) :
  NoDup (q_eid <$> q) -> heappop q = Some (m, q') -> q ≡ₚ m :: q'.
Proof.
  intros Hnd H. pose proof (heappop_in _ _ _ H) as Hin.
  destruct q as [|x q]; simpl in H; [discriminate|].
  injection H as <- <-. apply remove_eid_perm; assumption.
Qed.

Lemma heappop_min (q q' : list QItem) (m : QItem) (tm : Z) :
  heappop q = Some (m, q') -> q_time m = Fin tm ->
  forall y ty, y ∈ q -> q_time y = Fin ty -> tm <= ty.
Proof.
  destruct q as [|x q]; simpl; [discriminate|].
  intros [= <- _] Hm y ty Hy Hty. eapply least_min; eauto.
Qed.

Lemma heappop_none (q : list QItem) : heappop q = None -> q = [].
Proof. destruct q; simpl; [reflexivity|discriminate]. Qed.

(** ** The loop runs out of events, never out of fuel *)

Local Open Scope nat_scope.

Lemma sum_list_with_insert {A} (f : A -> nat) (l : list A) (i : nat) (x y : A) :
  l !! i = Some x ->
  sum_list_with f (<[i:=y]> l) + f x = sum_list_with f l + f y.
Proof.
  revert i. induction l as [|a l IH]; intros [|i] H; simpl in *; try discriminate.
  - injection H as ->. lia.
  - specialize (IH i H). lia.
Qed.

Lemma budget_record (a : action) (w : World) : budget (record a w) = budget w.
Proof. reflexivity. Qed.

Lemma budget_schedule ev p d w : budget (schedule ev p d w) = S (budget w).
Proof. unfold budget, schedule. simpl. rewrite length_app. simpl. lia. Qed.

Lemma budget_trigger_put r w : budget (_trigger_put r w) = budget w.
Proof.
  unfold _trigger_put, _do_put.
  destruct r; simpl;
    (destruct (put_queue _) as [|j rest] eqn:Epq; [reflexivity|]);
    (destruct (_ <? _)%Z; [|reflexivity]);
    unfold budget; simpl; rewrite Epq, length_app; simpl; lia.
Qed.

Lemma budget_request r i w : budget (request r i w) = S (budget w).
Proof.
  unfold request. rewrite budget_trigger_put.
  unfold budget. destruct r; simpl; rewrite length_app; simpl; lia.
Qed.

Lemma budget_release r i w : budget (release r i w) = S (budget w).
Proof.
  unfold release, succeed. rewrite budget_schedule.
  unfold budget. destruct r; reflexivity.
Qed.

Lemma budget_set_ship_gen i g w fr :
  ships w !! i = Some fr ->
  budget (set_ship_gen i g w) + ship_budget (sf_gen fr) = budget w + ship_budget g.
Proof.
  intros H. unfold set_ship_gen. rewrite H. unfold budget. simpl.
  pose proof (sum_list_with_insert (fun fr => ship_budget (sf_gen fr)) (ships w) i fr
                (mkShipFrame (sf_row fr) g) H) as E.
  simpl in E. lia.
Qed.

Lemma ships_record a w : ships (record a w) = ships w.
Proof. reflexivity. Qed.

Lemma ships_schedule ev p d w : ships (schedule ev p d w) = ships w.
Proof. reflexivity. Qed.

Lemma ships_trigger_put r w : ships (_trigger_put r w) = ships w.
Proof.
  unfold _trigger_put, _do_put.
  destruct r; simpl; (destruct (put_queue _); [reflexivity|]);
    (destruct (_ <? _)%Z; reflexivity).
Qed.

Lemma ships_request r i w : ships (request r i w) = ships w.
Proof. unfold request. rewrite ships_trigger_put. destruct r; reflexivity. Qed.

Lemma ships_release r i w : ships (release r i w) = ships w.
Proof. unfold release. destruct r; reflexivity. Qed.

Lemma ships_set_results_data r w : ships (set_results_data r w) = ships w.
Proof. reflexivity. Qed.

Lemma budget_set_results_data r w : budget (set_results_data r w) = budget w.
Proof. reflexivity. Qed.

Lemma budget_ship_process u i w :
  budget (ship_process u i w) <= budget w.
Proof.
  unfold ship_process.
  destruct (ships w !! i) as [fr|] eqn:Hi; [|lia].
  destruct (sf_gen fr) eqn:Hg.
  - pose proof (budget_set_ship_gen i
      (GenAtBerth (mkShipData (row_ship_id (sf_row fr)) (row_cargo_containers (sf_row fr)) (now w) None None None None))
      (request Berths i (record (Stamp i ARRIVED (now w)) w)) fr) as E.
    rewrite ships_request, ships_record in E. specialize (E Hi).
    rewrite budget_request, budget_record, Hg in E. simpl in *. lia.
  - match goal with |- budget (set_ship_gen i ?g ?w') <= _ =>
      pose proof (budget_set_ship_gen i g w' fr) as E end.
    rewrite ships_request, ships_record in E. specialize (E Hi).
    rewrite budget_request, budget_record, Hg in E. simpl in *. lia.
  - destruct (_ <? 0)%Z.
    + unfold finish. rewrite budget_schedule.
      match goal with |- S (budget (set_ship_gen i ?g ?w')) <= _ =>
        pose proof (budget_set_ship_gen i g w' fr) as E end.
      rewrite !ships_release, ships_record in E. specialize (E Hi).
      rewrite !budget_release, budget_record, Hg in E. simpl in *. lia.
    + match goal with |- budget (set_ship_gen i ?g ?w') <= _ =>
        pose proof (budget_set_ship_gen i g w' fr) as E end.
      rewrite ships_schedule, ships_record in E. specialize (E Hi).
      rewrite budget_schedule, budget_record, Hg in E. simpl in *. lia.
  - unfold finish. rewrite budget_schedule.
    match goal with |- S (budget (set_ship_gen i ?g ?w')) <= _ =>
      pose proof (budget_set_ship_gen i g w' fr) as E end.
    rewrite ships_record, ships_set_results_data, ships_record,
      !ships_release, ships_record in E. specialize (E Hi).
    rewrite Hg in E. simpl ship_budget in E.
    rewrite budget_record, budget_set_results_data, budget_record,
      !budget_release, budget_record in E. lia.
  - lia.
  - lia.
Qed.

Lemma budget_arrival_loop rows w :
  budget (arrival_loop rows w) + arrival_budget (arrival w)
    <= budget w + 8 * length rows + 1.
Proof.
  unfold arrival_loop. destruct rows as [|row rest].
  - unfold finish. rewrite budget_schedule. unfold budget. simpl. lia.
  - destruct (_ <? 0)%Z.
    + unfold finish. rewrite budget_schedule. unfold budget. simpl. lia.
    + unfold budget, schedule. simpl. rewrite length_app. simpl. lia.
Qed.

Lemma budget_spawn_ship row w : budget (spawn_ship row w) = budget w + 7.
Proof.
  unfold spawn_ship. rewrite budget_schedule. unfold budget. simpl.
  rewrite sum_list_with_app. simpl. lia.
Qed.

Lemma budget_arrival_process w : budget (arrival_process w) <= budget w.
Proof.
  unfold arrival_process. destruct (arrival w) eqn:Ha; [| |lia|lia].
  - pose proof (budget_arrival_loop rows w) as E. rewrite Ha in E. simpl in E. lia.
  - pose proof (budget_arrival_loop rest (spawn_ship row w)) as E.
    rewrite budget_spawn_ship in E.
    replace (arrival (spawn_ship row w)) with (arrival w) in E by reflexivity.
    rewrite Ha in E. simpl in E. lia.
Qed.

Lemma budget_pop (it : QItem) (q' : list QItem) (t : Z) (w : World) :
  heappop (queue w) = Some (it, q') ->
  S (budget (set_now t (set_queue q' w))) = budget w.
Proof.
  intros H. apply heappop_length in H. unfold budget. simpl. lia.
Qed.

(** Every step that continues lowers the budget. *)
Lemma step_lowers_budget u w w' :
  step u w = Stepped w' -> budget w' < budget w.
Proof.
  unfold step. destruct (heappop (queue w)) as [[it q']|] eqn:Hpop; [|discriminate].
  pose proof (budget_pop it q' (clock_at (q_time it) w) w Hpop) as Hb.
  set (w1 := set_now _ _) in *.
  destruct (q_event it) as [p|p|r i|r i|p [|]|]; try discriminate; intros [= <-].
  - destruct p; simpl; [pose proof (budget_arrival_process w1)|pose proof (budget_ship_process u i w1)]; lia.
  - destruct p; simpl; [pose proof (budget_arrival_process w1)|pose proof (budget_ship_process u i w1)]; lia.
  - simpl. pose proof (budget_ship_process u i w1). lia.
  - rewrite budget_trigger_put. lia.
  - lia.
Qed.

(** With more fuel than budget the loop ends by itself. *)
Lemma run_loop_fuel u fuel w :
  budget w < fuel -> forall w', run_loop u fuel w <> OutOfFuel w'.
Proof.
  revert w. induction fuel as [|fuel IH]; intros w Hlt w'; [lia|].
  simpl. destruct (step u w) as [w1| | |] eqn:Hs; try discriminate.
  apply IH. apply step_lowers_budget in Hs. lia.
Qed.

Local Close Scope nat_scope.

(** ** Histories *)

Lemma acts_snoc (j : nat) (tr : list action) (a : action) :
  acts j (tr ++ [a]) = if decide (ship_of a = j) then acts j tr ++ [a] else acts j tr.
Proof.
  unfold acts. rewrite filter_app. rewrite filter_cons.
  destruct (decide (ship_of a = j)); [reflexivity|apply app_nil_r].
Qed.

Lemma acts_snoc_same (j : nat) (tr : list action) (a : action) :
  ship_of a = j -> acts j (tr ++ [a]) = acts j tr ++ [a].
Proof. intros H. rewrite acts_snoc. destruct (decide _); [reflexivity|contradiction]. Qed.

Lemma acts_snoc_other (j : nat) (tr : list action) (a : action) :
  ship_of a <> j -> acts j (tr ++ [a]) = acts j tr.
Proof. intros H. rewrite acts_snoc. destruct (decide _); [contradiction|reflexivity]. Qed.

Lemma elem_of_acts (j : nat) (tr : list action) (a : action) :
  a ∈ acts j tr <-> (ship_of a = j /\ a ∈ tr).
Proof. unfold acts. apply (list_elem_of_filter (fun a => ship_of a = j)). Qed.

Lemma in_trace_acts (tr : list action) (a : action) :
  a ∈ tr <-> a ∈ acts (ship_of a) tr.
Proof. rewrite elem_of_acts. tauto. Qed.

Lemma ends_with_snoc {A} (l : list A) (a : A) : ends_with [a] (l ++ [a]).
Proof. exists l. reflexivity. Qed.

Lemma ends_with_app {A} (block l : list A) : ends_with block (l ++ block).
Proof. exists l. reflexivity. Qed.

(** Any action of an allowed history was allowed when it was recorded. *)
Lemma trace_ok_split (tr : list action) :
  trace_ok tr -> forall pre a post, tr = pre ++ a :: post -> allowed pre a.
Proof.
  induction 1 as [|tr b Hok IH Hb]; intros pre a post E.
  - destruct pre; discriminate.
  - destruct (decide (post = [])) as [->|Hne].
    + change (pre ++ [a]) with (pre ++ [a]) in E.
      apply app_inj_tail in E as [-> ->]. exact Hb.
    + destruct (exists_last Hne) as [post' [c ->]].
      rewrite app_comm_cons, app_assoc in E.
      apply app_inj_tail in E as [-> ->].
      eapply IH. reflexivity.
Qed.

(** ** Tokens *)

Lemma omap_target_unique (q : list QItem) (x y : QItem) (p : proc_id) :
  NoDup (omap target (q_event <$> q)) ->
  x ∈ q -> y ∈ q ->
  target (q_event x) = Some p -> target (q_event y) = Some p -> x = y.
Proof.
  induction q as [|z q IH]; intros Hnd Hx Hy Tx Ty; [inversion Hx|].
  rewrite fmap_cons in Hnd. simpl in Hnd.
  assert (forall v, v ∈ q -> target (q_event v) = Some p -> p ∈ omap target (q_event <$> q)) as Hin.
  { intros v Hv Tv. apply list_elem_of_omap. exists (q_event v). split; [|exact Tv].
    apply list_elem_of_fmap_2. exact Hv. }
  apply elem_of_cons in Hx as [-> | Hx]; apply elem_of_cons in Hy as [-> | Hy].
  - reflexivity.
  - rewrite Tx in Hnd. apply NoDup_cons in Hnd as [Hn _]. exfalso. apply Hn. eapply Hin; eauto.
  - rewrite Ty in Hnd. apply NoDup_cons in Hnd as [Hn _]. exfalso. apply Hn. eapply Hin; eauto.
  - apply IH; auto. destruct (target (q_event z)); [apply NoDup_cons in Hnd as [_ Hnd]|]; exact Hnd.
Qed.

Lemma elem_of_wake_list (w : World) (p : proc_id) :
  p ∈ wake_list w <->
    (exists it, it ∈ queue w /\ target (q_event it) = Some p)
    \/ (exists j, p = ShipProc j /\ (j ∈ put_queue (berths w) \/ j ∈ put_queue (cranes w))).
Proof.
  unfold wake_list, events. rewrite !elem_of_app, list_elem_of_omap, !list_elem_of_fmap.
  split.
  - intros [[ev [Hev T]] | [[j [-> Hj]] | [j [-> Hj]]]].
    + apply list_elem_of_fmap in Hev as [it [-> Hit]]. left. eauto.
    + right. eauto.
    + right. eauto.
  - intros [[it [Hit T]] | [j [-> [Hj | Hj]]]].
    + left. exists (q_event it). split; [|exact T]. apply list_elem_of_fmap_2, Hit.
    + right. left. eauto.
    + right. right. eauto.
Qed.

(** ** Frames and the invariant *)

Section Preservation.

Variable unload_time : Z.
Variable arrivals_df : list Row.
Variable horizon : vtime.

Local Abbreviation GInv := (GInv unload_time arrivals_df horizon).
Local Abbreviation ship_inv := (ship_inv unload_time).
Local Abbreviation arrival_inv := (arrival_inv arrivals_df).

Lemma in_events (w : World) (ev : event) :
  ev ∈ events w <-> exists it, it ∈ queue w /\ q_event it = ev.
Proof.
  unfold events. rewrite list_elem_of_fmap. split; intros [it [H1 H2]]; exists it; auto.
Qed.

Lemma waiting_ext (r : resource_id) (j : nat) (before : list action) (w w' : World) :
  ext_for j w w' -> waiting r j before w -> waiting r j before w'.
Proof.
  intros (Hn & Ha & Hq & Hp & Hw) [[H1 H2] | [H1 H2]].
  - left. split; [congruence|auto].
  - right. split; [congruence|].
    apply in_events in H2 as [it [Hit E]]. apply in_events. exists it.
    split; [|exact E]. apply Hq; [exact Hit|]. rewrite E. reflexivity.
Qed.

Lemma ship_inv_ext (w w' : World) (j : nat) (fr : ShipFrame) :
  ext_for j w w' -> ship_inv w j fr -> ship_inv w' j fr.
Proof.
  intros Hext. pose proof Hext as (Hn & Ha & Hq & Hp & Hw).
  unfold ship_inv. destruct (sf_gen fr) as [|d|d|d| |].
  - intros [H1 H2]. split; [congruence|].
    apply in_events in H2 as [it [Hit E]]. apply in_events. exists it.
    split; [|exact E]. apply Hq; [exact Hit|]. rewrite E. reflexivity.
  - intros (a & Hd & Hle & Hwait). exists a. repeat split; [exact Hd|lia|].
    eapply waiting_ext; eauto.
  - intros (a & b & Hd & Hab & Hle & Hwait). exists a, b. repeat split; [exact Hd|lia|lia|].
    eapply waiting_ext; eauto.
  - intros (a & b & c & Hd & Hab & Hbc & Hle & Hacts & (it & Hit & E & T)).
    exists a, b, c. repeat split; try assumption; try lia; [congruence|].
    exists it. repeat split; auto. apply Hq; [exact Hit|]. rewrite E. reflexivity.
  - intros [H1 (a & b & c & e & H2)]. split; [auto|]. exists a, b, c, e. congruence.
  - intros [H1 (Hc & a & b & c & H2)]. split; [auto|]. split; [exact Hc|].
    exists a, b, c. congruence.
Qed.

Lemma wake_list_pop (w : World) (it : QItem) (q' : list QItem) (t : Z) :
  queue w ≡ₚ it :: q' ->
  wake_list w ≡ₚ
    (match target (q_event it) with Some p => [p] | None => [] end)
    ++ wake_list (set_now t (set_queue q' w)).
Proof.
  intros Hp. unfold wake_list, events. simpl. rewrite Hp. rewrite fmap_cons. simpl.
  destruct (target (q_event it)); reflexivity.
Qed.

Lemma pop_inv (w : World) (it : QItem) (q' : list QItem) :
  GInv None w -> heappop (queue w) = Some (it, q') -> q_event it <> Until ->
  q_event it <> Process ArrivalProc false ->
  let w1 := set_now (clock_at (q_time it) w) (set_queue q' w) in
  GInv (target (q_event it)) w1
  /\ q_time it = Fin (now w1) /\ now w <= now w1 /\ queue w ≡ₚ it :: q'.
Proof.
  intros G Hpop Hne Hnf w1.
  pose proof (heappop_perm _ _ _ (g_eids G) Hpop) as Hperm.
  pose proof (heappop_in _ _ _ Hpop) as Hin.
  destruct (g_clock G it Hin Hne) as [t [Ht Hle]].
  assert (now w1 = t) as Hnow by (unfold w1; simpl; rewrite Ht; reflexivity).
  assert (forall x, x ∈ q' -> x ∈ queue w) as Hsub.
  { intros x Hx. rewrite Hperm. apply list_elem_of_further, Hx. }
  pose proof (wake_list_pop w it q' (clock_at (q_time it) w) Hperm) as Hwl.
  fold w1 in Hwl.
  assert (forall p, p ∈ wake_list w1 -> p ∈ wake_list w) as Hwsub.
  { intros p Hp. rewrite Hwl. apply elem_of_app. right. exact Hp. }
  assert (NoDup (q_eid <$> q')) as Hnd'.
  { pose proof (g_eids G) as Hnd. rewrite Hperm, fmap_cons in Hnd.
    apply NoDup_cons in Hnd as [_ Hnd]. exact Hnd. }
  assert (it ∉ q') as Hnotin.
  { pose proof (g_eids G) as Hnd. rewrite Hperm, fmap_cons in Hnd.
    apply NoDup_cons in Hnd as [Hn _]. intros Hc. apply Hn.
    apply list_elem_of_fmap_2. exact Hc. }
  split; [|split; [congruence|split; [lia|exact Hperm]]].
  constructor; simpl.
  - exact Hnd'.
  - intros x Hx. apply (g_eid_lt G). auto.
  - intros x Hx Hxu. destruct (g_clock G x (Hsub x Hx) Hxu) as [tx [Htx Hlx]].
    exists tx. split; [exact Htx|]. rewrite Ht. simpl.
    eapply (heappop_min _ _ _ _ Hpop Ht x tx); auto.
  - intros x Hx Hxi. pose proof (g_instant G x (Hsub x Hx) Hxi) as Htx.
    rewrite Ht. simpl. rewrite Htx. f_equal.
    pose proof (heappop_min _ _ _ _ Hpop Ht x (now w) (Hsub x Hx) Htx). lia.
  - pose proof (g_wake G) as Hnd. rewrite Hwl in Hnd.
    apply NoDup_app in Hnd as (_ & _ & Hnd). exact Hnd.
  - intros j Hj. apply (g_wake_lt G). auto.
  - intros p Hp. pose proof (g_wake G) as Hnd. rewrite Hwl, Hp in Hnd.
    simpl in Hnd. apply NoDup_cons in Hnd as [Hn _]. exact Hn.
  - apply (g_acts G).
  - apply (g_users G).
  - apply (g_results G).
  - apply (g_emitted G).
  - apply (g_trace G).
  - intros j fr Hj Hrun. apply (ship_inv_ext w w1).
    + split; [lia|]. split; [reflexivity|]. split; [|split].
      * intros x Hx Tx. simpl. rewrite Hperm in Hx.
        apply elem_of_cons in Hx as [-> | Hx]; [|exact Hx]. congruence.
      * intros r Hr. destruct r; exact Hr.
      * intros Hn Hc. apply Hn. auto.
    + apply (g_ships G); [exact Hj|discriminate].
  - intros Hrun. pose proof (g_arrival G) as Ha.
    assert (None <> Some ArrivalProc) as Hd by discriminate. specialize (Ha Hd).
    unfold arrival_inv in *. simpl.
    assert (forall ev tm, target ev = Some ArrivalProc -> scheduled ev tm w -> scheduled ev tm w1) as Hs.
    { intros ev tm Tev (x & Hx & E & T). exists x. repeat split; auto.
      simpl. rewrite Hperm in Hx. apply elem_of_cons in Hx as [-> | Hx]; [|exact Hx].
      rewrite E in Hrun. congruence. }
    destruct (arrival w) as [rows|row rest| |].
    + destruct Ha as (H1 & H2 & H3). repeat split; auto.
    + destruct Ha as (H1 & H2 & H3). repeat split; auto.
    + destruct Ha as (H1 & H2 & H3). repeat split; auto.
    + destruct Ha as (H1 & H2). split; auto.
  - pose proof (g_until G) as Hu. apply in_events in Hu as (x & Hx & E).
    apply in_events. exists x. split; [|exact E]. simpl.
    rewrite Hperm in Hx. apply elem_of_cons in Hx as [-> | Hx]; [contradiction|exact Hx].
  - intros x p Hx E. exact (g_fail G x p (Hsub x Hx) E).
  - intros _ Ha.
    assert (None <> Some ArrivalProc) as Hd by discriminate.
    destruct (g_raised G Hd Ha) as [Hf Hl].
    apply in_events in Hf as (x & Hx & E).
    assert (x ∈ q') as Hx'.
    { rewrite Hperm in Hx. apply elem_of_cons in Hx as [-> | Hx]; [contradiction|exact Hx]. }
    split.
    + apply in_events. exists x. split; [exact Hx'|exact E].
    + assert (q_time x = Fin (now w)) as Tx
        by (apply (g_instant G x Hx); rewrite E; reflexivity).
      pose proof (heappop_min _ _ _ _ Hpop Ht x (now w) Hx Tx) as Hmin.
      change (now w1 <= last_time (ships w)). lia.
  - intros x Hx E. exact (g_horizon G x (Hsub x Hx) E).
Qed.


Lemma wake_list_split (w : World) (p : proc_id) (it : QItem) :
  NoDup (wake_list w) -> it ∈ queue w -> target (q_event it) = Some p ->
  (forall it', it' ∈ queue w -> target (q_event it') = Some p -> it' = it)
  /\ (forall j, p = ShipProc j ->
        (j ∉ put_queue (berths w)) /\ (j ∉ put_queue (cranes w))).
Proof.
  intros Hnd Hit T. unfold wake_list, events in Hnd.
  apply NoDup_app in Hnd as (Hq & Hdis & _). split.
  - intros it' Hit' T'. eapply omap_target_unique; eauto.
  - intros j ->.
    assert (ShipProc j ∈ omap target (q_event <$> queue w)) as Hin.
    { apply list_elem_of_omap. exists (q_event it). split; [|exact T].
      apply list_elem_of_fmap_2, Hit. }
    specialize (Hdis _ Hin). rewrite elem_of_app in Hdis.
    split; intros Hc; apply Hdis; [left|right]; apply list_elem_of_fmap_2, Hc.
Qed.

Lemma waiting_granted (w : World) (r : resource_id) (i : nat) (before : list action)
    (it : QItem) :
  NoDup (wake_list w) -> it ∈ queue w -> target (q_event it) = Some (ShipProc i) ->
  waiting r i before w -> acts i (trace w) = before ++ [Acquire r i].
Proof.
  intros Hnd Hit T [[_ Hpq] | [H _]]; [|exact H].
  destruct (wake_list_split w _ it Hnd Hit T) as [_ Hno].
  destruct (Hno i eq_refl) as [Hb Hc]. destruct r; contradiction.
Qed.

(** The ship that an event of the queue resumes is at a [yield], and what
    it waited for has happened. *)
Lemma resumed_ship (w : World) (i : nat) (it : QItem) :
  GInv None w -> it ∈ queue w -> target (q_event it) = Some (ShipProc i) ->
  exists fr, ships w !! i = Some fr /\ resumable unload_time w i fr it.
Proof.
  intros G Hit T.
  assert (ShipProc i ∈ wake_list w) as Hw.
  { apply elem_of_wake_list. left. eauto. }
  pose proof (g_wake_lt G i Hw) as Hlt.
  destruct (lookup_lt_is_Some_2 _ _ Hlt) as [fr Hfr].
  exists fr. split; [exact Hfr|].
  assert (None <> Some (ShipProc i)) as Hd by discriminate.
  pose proof (g_ships G i fr Hfr Hd) as Hs.
  unfold ship_inv in Hs. unfold resumable.
  destruct (sf_gen fr) as [|d|d|d| |].
  - apply Hs.
  - destruct Hs as (a & Hdd & Hle & Hwait). exists a. repeat split; auto.
    eapply waiting_granted; [exact (g_wake G)|exact Hit|exact T|exact Hwait].
  - destruct Hs as (a & b & Hdd & Hab & Hle & Hwait). exists a, b. repeat split; auto.
    eapply waiting_granted; [exact (g_wake G)|exact Hit|exact T|exact Hwait].
  - destruct Hs as (a & b & c & Hdd & Hab & Hbc & Hle & Hacts & (it' & Hit' & E & Tm)).
    exists a, b, c. repeat split; auto.
    destruct (wake_list_split w _ it (g_wake G) Hit T) as [Hu _].
    rewrite <- (Hu it' Hit'); [exact Tm|]. rewrite E. reflexivity.
  - destruct Hs as [Hn _]. contradiction.
  - destruct Hs as [Hn _]. contradiction.
Qed.

(** *** Writing the history and the frames *)

(** Fields of the invariant that a change leaves as they were. *)
Ltac keep G :=
  first
    [ exact (g_eids G) | exact (g_eid_lt G) | exact (g_clock G)
    | exact (g_instant G) | exact (g_wake G) | exact (g_wake_lt G)
    | exact (g_run G) | exact (g_acts G) | exact (g_users G)
    | exact (g_results G) | exact (g_emitted G) | exact (g_trace G)
    | exact (g_ships G) | exact (g_arrival G)
    | exact (g_until G) | exact (g_fail G) | exact (g_raised G)
    | exact (g_horizon G)
    | intros ? ?; discriminate ].

Lemma elem_of_snoc {A} (l : list A) (a x : A) : x ∈ l ++ [a] <-> x ∈ l \/ x = a.
Proof. rewrite elem_of_app, list_elem_of_singleton. reflexivity. Qed.

Lemma ext_for_same (j : nat) (w w' : World) :
  now w' = now w -> trace w' = trace w -> queue w' = queue w ->
  berths w' = berths w -> cranes w' = cranes w -> ext_for j w w'.
Proof.
  intros Hn Ht Hq Hb Hc. unfold ext_for, wake_list, events.
  rewrite Hn, Ht, Hq, Hb, Hc. split; [lia|]. split; [reflexivity|].
  split; [auto|]. split; [|auto].
  intros r. destruct r; simpl; rewrite ?Hb, ?Hc; auto.
Qed.

Lemma arrival_inv_ext (w w' : World) :
  arrival w' = arrival w ->
  sf_row <$> ships w' = sf_row <$> ships w ->
  (forall it, it ∈ queue w -> target (q_event it) = Some ArrivalProc -> it ∈ queue w') ->
  (ArrivalProc ∉ wake_list w -> ArrivalProc ∉ wake_list w') ->
  arrival_inv w -> arrival_inv w'.
Proof.
  intros Ha Hs Hq Hw. unfold arrival_inv. rewrite Ha, Hs.
  assert (forall ev tm, target ev = Some ArrivalProc -> scheduled ev tm w -> scheduled ev tm w') as Hsch.
  { intros ev tm T (x & Hx & E & Tm). exists x. repeat split; auto.
    apply Hq; [exact Hx|]. rewrite E. exact T. }
  assert (last_time (ships w') = last_time (ships w)) as Hl
    by (unfold last_time; rewrite Hs; reflexivity).
  rewrite Hl.
  destruct (arrival w) as [rows|row rest| |].
  - intros (H1 & H2 & H3). repeat split; auto.
    rewrite H2 in Hs. simpl in Hs. apply fmap_nil_inv in Hs. exact Hs.
  - intros (H1 & H2 & H3). repeat split; auto.
  - intros (H1 & H2 & H3). repeat split; auto.
  - intros (H1 & H2). split; auto.
Qed.

Lemma raised_ok_ext (w w' : World) :
  arrival w' = arrival w ->
  sf_row <$> ships w' = sf_row <$> ships w ->
  now w' = now w ->
  (forall it, it ∈ queue w -> it ∈ queue w') ->
  raised_ok w -> raised_ok w'.
Proof.
  intros Ha Hs Hn Hq H. unfold raised_ok in *. rewrite Ha, Hn.
  assert (last_time (ships w') = last_time (ships w)) as Hl
    by (unfold last_time; rewrite Hs; reflexivity).
  rewrite Hl. intros E. destruct (H E) as [H1 H2]. split; [|exact H2].
  apply in_events in H1 as (x & Hx & Ex). apply in_events. exists x. auto.
Qed.

Lemma fail_ok_ext (p : proc_id) (w w' : World) :
  arrival w' = arrival w -> ships w' = ships w -> fail_ok p w -> fail_ok p w'.
Proof. intros Ha Hs. unfold fail_ok. rewrite Ha, Hs. auto. Qed.

(** A timestamp is written into the dictionary of the running ship. *)
Lemma record_stamp_inv (w : World) (i : nat) (m : milestone) (t : Z) :
  GInv (Some (ShipProc i)) w -> (i < length (ships w))%nat ->
  allowed (trace w) (Stamp i m t) ->
  GInv (Some (ShipProc i)) (record (Stamp i m t) w).
Proof.
  intros G Hi Hal. constructor; try keep G.
  - intros j Hj. simpl in *. rewrite acts_snoc_other; [apply (g_acts G j Hj)|simpl; lia].
  - intros r. destruct (g_users G r) as [Hnd Hiff]. split.
    + destruct r; exact Hnd.
    + intros j. transitivity (Acquire r j ∈ trace w /\ Free r j ∉ trace w).
      * destruct r; apply Hiff.
      * simpl. rewrite !elem_of_snoc. split.
        -- intros [H1 H2]. split; [left; exact H1|]. intros [H3 | H3]; [auto|discriminate].
        -- intros [[H1 | H1] H2]; [|discriminate]. split; [exact H1|]. intros H3. apply H2. left. exact H3.
  - simpl. constructor; [exact (g_trace G)|exact Hal].
  - intros j fr Hj Hne. apply (ship_inv_ext w).
    + split; [simpl; lia|]. split.
      { simpl. apply acts_snoc_other. simpl. congruence. }
      split; [auto|]. split; [intros r; destruct r; auto|auto].
    + apply (g_ships G); assumption.
Qed.

Lemma fmap_row_insert (l : list ShipFrame) (i : nat) (fr : ShipFrame) (g : ship_gen) :
  l !! i = Some fr ->
  sf_row <$> <[i := mkShipFrame (sf_row fr) g]> l = sf_row <$> l.
Proof.
  intros H. rewrite list_fmap_insert. simpl. apply list_insert_id.
  rewrite list_lookup_fmap, H. reflexivity.
Qed.

Lemma returned_count_insert (l : list ShipFrame) (i : nat) (fr : ShipFrame) (g : ship_gen) :
  l !! i = Some fr ->
  (returned_count (<[i := mkShipFrame (sf_row fr) g]> l)
   + match sf_gen fr with GenReturned => 1 | _ => 0 end
   = returned_count l + match g with GenReturned => 1 | _ => 0 end)%nat.
Proof.
  intros H. unfold returned_count.
  apply (sum_list_with_insert
           (fun fr => match sf_gen fr with GenReturned => 1%nat | _ => 0%nat end)
           l i fr (mkShipFrame (sf_row fr) g) H).
Qed.

(** The frame of the running ship moves to its next point. *)
Lemma set_gen_inv (run' : option proc_id) (w : World) (i : nat) (fr : ShipFrame)
    (g : ship_gen) :
  GInv (Some (ShipProc i)) w -> ships w !! i = Some fr ->
  sf_gen fr <> GenReturned -> sf_gen fr <> GenRaised -> g <> GenReturned ->
  (run' = Some (ShipProc i)
   \/ (run' = None
       /\ ship_inv (set_ship_gen i g w) i (mkShipFrame (sf_row fr) g))) ->
  GInv run' (set_ship_gen i g w).
Proof.
  intros G Hfr Hold Hold' Hnew Hrun.
  assert (set_ship_gen i g w = set_ships (<[i := mkShipFrame (sf_row fr) g]> (ships w)) w) as E.
  { unfold set_ship_gen. rewrite Hfr. reflexivity. }
  rewrite E in *. clear E.
  assert (Some (ShipProc i) <> Some ArrivalProc) as Hna by discriminate.
  constructor; try keep G.
  - simpl. intros j Hj. rewrite length_insert. apply (g_wake_lt G j Hj).
  - intros p Hp. destruct Hrun as [-> | [-> _]]; [|discriminate].
    apply (g_run G p Hp).
  - simpl. intros j. rewrite length_insert. apply (g_acts G j).
  - simpl. pose proof (returned_count_insert (ships w) i fr g Hfr) as Hc.
    rewrite (g_emitted G).
    destruct (sf_gen fr); destruct g; try contradiction; simpl in Hc; lia.
  - simpl. intros j fr' Hj Hne.
    destruct (decide (j = i)) as [-> | Hji].
    + destruct Hrun as [-> | [-> Hs]]; [contradiction|].
      rewrite list_lookup_insert_eq in Hj by (eapply lookup_lt_Some; eauto).
      injection Hj as <-. exact Hs.
    + rewrite list_lookup_insert_ne in Hj by congruence.
      apply (ship_inv_ext w).
      * apply ext_for_same; reflexivity.
      * apply (g_ships G); [exact Hj|congruence].
  - intros _. apply (arrival_inv_ext w); auto.
    + simpl. apply fmap_row_insert. exact Hfr.
    + exact (g_arrival G Hna).
  - intros it p Hit E. pose proof (g_fail G it p Hit E) as Hf.
    destruct p as [|j]; [exact Hf|]. simpl in *.
    destruct Hf as (fr0 & Hfr0 & Hg0).
    destruct (decide (j = i)) as [-> | Hji].
    + rewrite Hfr in Hfr0. injection Hfr0 as <-. contradiction.
    + exists fr0. split; [|exact Hg0]. rewrite list_lookup_insert_ne by congruence. exact Hfr0.
  - intros _. apply (raised_ok_ext w); auto.
    + simpl. apply fmap_row_insert. exact Hfr.
    + exact (g_raised G Hna).
Qed.

(** *** Entries added to the queue *)

Lemma GInv_queue_ok (run : option proc_id) (w : World) :
  GInv run w -> queue_ok (now w) (eid w) (queue w).
Proof.
  intros G. repeat split; [exact (g_eids G)|exact (g_eid_lt G)|exact (g_clock G)|exact (g_instant G)].
Qed.

Lemma queue_ok_snoc (t : Z) (next : nat) (q : list QItem) (ev : event) (pr : nat) (d : Z) :
  queue_ok t next q -> 0 <= d -> (instant ev = true -> d = 0) ->
  queue_ok t (S next) (q ++ [mkQItem (vtime_add (Fin t) (Fin d)) pr next ev]).
Proof.
  intros (Hnd & Hlt & Hck & Hin) Hd Hi. repeat split.
  - rewrite fmap_app. simpl. apply NoDup_app. split; [exact Hnd|]. split.
    + intros x Hx Hc. apply list_elem_of_singleton in Hc as ->.
      apply list_elem_of_fmap in Hx as [it [E Hit]]. specialize (Hlt it Hit). lia.
    + apply NoDup_singleton.
  - intros it [Hit | ->]%elem_of_snoc; [specialize (Hlt it Hit); lia|simpl; lia].
  - intros it [Hit | ->]%elem_of_snoc Hne; [auto|]. simpl. exists (t + d). split; [reflexivity|lia].
  - intros it [Hit | ->]%elem_of_snoc Hit'; [auto|]. simpl in *. rewrite (Hi Hit'). f_equal. lia.
Qed.

Lemma wake_list_of (w : World) :
  wake_list w = wake_of (queue w) (put_queue (berths w)) (put_queue (cranes w)).
Proof. reflexivity. Qed.

Lemma wake_of_snoc (q : list QItem) (pb pc : list nat) (it : QItem) :
  wake_of (q ++ [it]) pb pc ≡ₚ
    match target (q_event it) with Some p => [p] | None => [] end ++ wake_of q pb pc.
Proof.
  unfold wake_of. rewrite fmap_app, omap_app. simpl.
  destruct (target (q_event it)); simpl.
  - rewrite <- app_assoc. simpl. symmetry. apply Permutation_middle.
  - rewrite app_nil_r. reflexivity.
Qed.

Lemma wake_of_enqueue_b (q : list QItem) (pb pc : list nat) (i : nat) :
  wake_of q (pb ++ [i]) pc ≡ₚ ShipProc i :: wake_of q pb pc.
Proof.
  unfold wake_of. rewrite fmap_app. simpl.
  rewrite <- !app_assoc. simpl.
  rewrite <- Permutation_middle. rewrite <- Permutation_middle. reflexivity.
Qed.

Lemma wake_of_enqueue_c (q : list QItem) (pb pc : list nat) (i : nat) :
  wake_of q pb (pc ++ [i]) ≡ₚ ShipProc i :: wake_of q pb pc.
Proof.
  unfold wake_of. rewrite fmap_app. simpl.
  rewrite !app_assoc. rewrite <- Permutation_cons_append. reflexivity.
Qed.

Lemma wake_of_head_b (q : list QItem) (pb pc : list nat) (j : nat) :
  wake_of q (j :: pb) pc ≡ₚ ShipProc j :: wake_of q pb pc.
Proof.
  unfold wake_of. simpl. rewrite <- Permutation_middle. reflexivity.
Qed.

Lemma wake_of_head_c (q : list QItem) (pb pc : list nat) (j : nat) :
  wake_of q pb (j :: pc) ≡ₚ ShipProc j :: wake_of q pb pc.
Proof.
  unfold wake_of. simpl. rewrite <- Permutation_middle.
  rewrite <- Permutation_middle. reflexivity.
Qed.

Lemma wake_list_enqueue (w : World) (r : resource_id) (i : nat) :
  wake_list (set_resource r (mkResource (capacity (resource r w)) (users (resource r w))
                               (put_queue (resource r w) ++ [i])) w)
    ≡ₚ ShipProc i :: wake_list w.
Proof.
  destruct r; simpl; rewrite !wake_list_of; simpl.
  - apply wake_of_enqueue_b.
  - apply wake_of_enqueue_c.
Qed.

Lemma wake_list_schedule (w : World) (ev : event) (pr : nat) (d : vtime) :
  wake_list (schedule ev pr d w) ≡ₚ
    match target ev with Some p => [p] | None => [] end ++ wake_list w.
Proof.
  rewrite !wake_list_of. simpl. apply wake_of_snoc.
Qed.

(** The request of the running ship joins the queue of the resource. *)
Lemma enqueue_inv (w w' : World) (r : resource_id) (i : nat) (fr : ShipFrame) :
  w' = set_resource r (mkResource (capacity (resource r w)) (users (resource r w))
                         (put_queue (resource r w) ++ [i])) w ->
  GInv (Some (ShipProc i)) w -> ships w !! i = Some fr ->
  ship_inv w' i fr -> GInv None w'.
Proof.
  intros E G Hfr Hs.
  pose proof (wake_list_enqueue w r i) as Hwl. rewrite <- E in Hwl.
  assert (ShipProc i ∉ wake_list w) as Hni by (apply (g_run G); reflexivity).
  assert (Some (ShipProc i) <> Some ArrivalProc) as Hna by discriminate.
  assert (ships w' = ships w) as Hsh by (rewrite E; destruct r; reflexivity).
  assert (queue w' = queue w) as Hq by (rewrite E; destruct r; reflexivity).
  assert (trace w' = trace w) as Htr by (rewrite E; destruct r; reflexivity).
  assert (now w' = now w) as Hnow by (rewrite E; destruct r; reflexivity).
  constructor.
  - rewrite Hq. exact (g_eids G).
  - rewrite Hq. rewrite E. destruct r; exact (g_eid_lt G).
  - rewrite Hq, Hnow. exact (g_clock G).
  - rewrite Hq, Hnow. exact (g_instant G).
  - rewrite Hwl. apply NoDup_cons. split; [exact Hni|exact (g_wake G)].
  - intros j Hj. rewrite Hsh. rewrite Hwl in Hj.
    apply elem_of_cons in Hj as [[= ->] | Hj].
    + eapply lookup_lt_Some; eauto.
    + apply (g_wake_lt G j Hj).
  - intros p Hp. discriminate.
  - rewrite Hsh, Htr. exact (g_acts G).
  - intros r'. rewrite Htr.
    replace (users (resource r' w')) with (users (resource r' w))
      by (rewrite E; destruct r, r'; reflexivity).
    exact (g_users G r').
  - rewrite E. destruct r; exact (g_results G).
  - rewrite E. destruct r; exact (g_emitted G).
  - rewrite Htr. exact (g_trace G).
  - intros j fr' Hj _. rewrite Hsh in Hj.
    destruct (decide (j = i)) as [-> | Hji].
    + rewrite Hfr in Hj. injection Hj as <-. exact Hs.
    + apply (ship_inv_ext w).
      * split; [lia|]. split; [rewrite Htr; reflexivity|]. split; [rewrite Hq; auto|].
        split.
        -- intros r' Hr'. rewrite E. destruct r, r'; simpl in *; auto;
             apply elem_of_app; left; exact Hr'.
        -- intros Hn Hc. rewrite Hwl in Hc. apply elem_of_cons in Hc as [[= ->] | Hc]; auto.
      * apply (g_ships G); [exact Hj|congruence].
  - intros _. apply (arrival_inv_ext w).
    + rewrite E. destruct r; reflexivity.
    + rewrite Hsh. reflexivity.
    + rewrite Hq. auto.
    + intros Hn Hc. rewrite Hwl in Hc. apply elem_of_cons in Hc as [[=] | Hc]; auto.
    + exact (g_arrival G Hna).
  - unfold events. rewrite Hq. exact (g_until G).
  - intros it p Hit Ev. rewrite Hq in Hit. apply (fail_ok_ext p w).
    + rewrite E. destruct r; reflexivity.
    + exact Hsh.
    + exact (g_fail G it p Hit Ev).
  - intros _. apply (raised_ok_ext w).
    + rewrite E. destruct r; reflexivity.
    + rewrite Hsh. reflexivity.
    + exact Hnow.
    + rewrite Hq. auto.
    + exact (g_raised G Hna).
  - rewrite Hq. exact (g_horizon G).
Qed.

(** *** Serving the queue of a resource *)

Lemma trigger_put_cases (r : resource_id) (w : World) :
  _trigger_put r w = w
  \/ exists j rest,
       put_queue (resource r w) = j :: rest
       /\ Z.of_nat (length (users (resource r w))) < capacity (resource r w)
       /\ _trigger_put r w = granted r j rest w.
Proof.
  unfold _trigger_put, _do_put.
  destruct (put_queue (resource r w)) as [|j rest] eqn:Epq; [left; reflexivity|].
  destruct (Z.of_nat (length (users (resource r w))) <? capacity (resource r w)) eqn:Eroom.
  - right. exists j, rest. split; [reflexivity|]. split; [apply Z.ltb_lt, Eroom|].
    destruct r; reflexivity.
  - left. reflexivity.
Qed.

Lemma wake_list_pq (w : World) :
  NoDup (wake_list w) ->
  NoDup (put_queue (berths w)) /\ NoDup (put_queue (cranes w))
  /\ (forall j, j ∈ put_queue (berths w) -> j ∉ put_queue (cranes w)).
Proof.
  unfold wake_list. intros Hnd.
  apply NoDup_app in Hnd as (_ & _ & Hnd).
  apply NoDup_app in Hnd as (Hb & Hdis & Hc).
  split; [eapply NoDup_fmap_1; eauto|]. split; [eapply NoDup_fmap_1; eauto|].
  intros j Hj Hc'. apply (Hdis (ShipProc j)); apply list_elem_of_fmap_2; assumption.
Qed.

Lemma in_pq_wake (w : World) (r : resource_id) (j : nat) :
  j ∈ put_queue (resource r w) -> ShipProc j ∈ wake_list w.
Proof.
  intros H. apply elem_of_wake_list. right. exists j. split; [reflexivity|].
  destruct r; [left|right]; exact H.
Qed.

Lemma in_pq_no_event (w : World) (r : resource_id) (j : nat) (ev : event) :
  NoDup (wake_list w) -> j ∈ put_queue (resource r w) ->
  ev ∈ events w -> target ev = Some (ShipProc j) -> False.
Proof.
  intros Hnd Hj Hev T. apply in_events in Hev as [it [Hit E]].
  rewrite <- E in T.
  destruct (wake_list_split w _ it Hnd Hit T) as [_ Hno].
  destruct (Hno j eq_refl) as [Hb Hc]. destruct r; contradiction.
Qed.

Lemma not_in_tr (a : action) (l : list action) :
  Forall (fun b => b <> a) l -> a ∉ l.
Proof. intros H Hc. rewrite Forall_forall in H. exact (H a Hc eq_refl). Qed.

(** A request in the queue of a resource belongs to a ship that is
    suspended on that request and holds nothing of the resource. *)
Lemma in_pq_waiting (run : option proc_id) (w : World) (r : resource_id) (j : nat) :
  GInv run w -> j ∈ put_queue (resource r w) ->
  exists fr before,
    ships w !! j = Some fr /\ run <> Some (ShipProc j)
    /\ acts j (trace w) = before
    /\ (Acquire r j ∉ before) /\ (Free r j ∉ before)
    /\ forall w', now w' = now w -> waiting r j before w' -> ship_inv w' j fr.
Proof.
  intros G Hj.
  pose proof (in_pq_wake w r j Hj) as Hw.
  pose proof (g_wake_lt G j Hw) as Hlt.
  destruct (lookup_lt_is_Some_2 _ _ Hlt) as [fr Hfr].
  assert (run <> Some (ShipProc j)) as Hrun.
  { intros Hc. apply (g_run G _ Hc). exact Hw. }
  pose proof (g_ships G j fr Hfr Hrun) as Hs.
  pose proof (g_wake G) as Hnd.
  destruct (wake_list_pq w Hnd) as (_ & _ & Hbc).
  exists fr, (acts j (trace w)). split; [exact Hfr|]. split; [exact Hrun|].
  split; [reflexivity|].
  unfold ship_inv in *. destruct (sf_gen fr) as [|d|d|d| |].
  - destruct Hs as [_ He]. exfalso. eapply in_pq_no_event; eauto.
  - destruct Hs as (a & Hd & Hle & [[Ha Hp] | [Ha He]]).
    2:{ exfalso. eapply in_pq_no_event; eauto. }
    destruct r.
    2:{ exfalso. exact (Hbc j Hp Hj). }
    rewrite Ha. split; [|split].
    + apply not_in_tr. repeat constructor; discriminate.
    + apply not_in_tr. repeat constructor; discriminate.
    + intros w' Hn Hwt. exists a. split; [exact Hd|]. split; [lia|exact Hwt].
  - destruct Hs as (a & b & Hd & Hab & Hle & [[Ha Hp] | [Ha He]]).
    2:{ exfalso. eapply in_pq_no_event; eauto. }
    destruct r.
    1:{ exfalso. exact (Hbc j Hj Hp). }
    rewrite Ha. split; [|split].
    + apply not_in_tr. repeat constructor; discriminate.
    + apply not_in_tr. repeat constructor; discriminate.
    + intros w' Hn Hwt. exists a, b. split; [exact Hd|]. split; [lia|]. split; [lia|exact Hwt].
  - destruct Hs as (a & b & c & Hd & Hab & Hbc' & Hle & Ha & (it & Hit & E & Tm)).
    exfalso. eapply (in_pq_no_event w r j (Timeout (ShipProc j))); eauto.
    apply in_events. eauto.
  - destruct Hs as [Hn _]. contradiction.
  - destruct Hs as [Hn _]. contradiction.
Qed.

Lemma users_iff_acquire (tr : list action) (us : list nat) (r r' : resource_id) (j : nat) :
  NoDup us ->
  (forall k, k ∈ us <-> (Acquire r' k ∈ tr /\ Free r' k ∉ tr)) ->
  (r' = r -> (Acquire r j ∉ tr) /\ (Free r j ∉ tr)) ->
  let us' := if decide (r' = r) then us ++ [j] else us in
  NoDup us'
  /\ forall k, k ∈ us' <-> (Acquire r' k ∈ tr ++ [Acquire r j] /\ Free r' k ∉ tr ++ [Acquire r j]).
Proof.
  intros Hnd Hiff Hnew us'. unfold us'. destruct (decide (r' = r)) as [-> | Hne].
  - destruct (Hnew eq_refl) as [Hna Hnf]. split.
    + apply NoDup_app. split; [exact Hnd|]. split; [|apply NoDup_singleton].
      intros k Hk Hc. apply list_elem_of_singleton in Hc as ->.
      apply Hiff in Hk as [Hk _]. contradiction.
    + intros k. rewrite !elem_of_snoc, Hiff. split.
      * intros [[H1 H2] | ->].
        -- split; [left; exact H1|]. intros [H3 | H3]; [contradiction|discriminate].
        -- split; [right; reflexivity|]. intros [H3 | H3]; [contradiction|discriminate].
      * intros [[H1 | H1] H2].
        -- left. split; [exact H1|]. intros H3. apply H2. left. exact H3.
        -- right. congruence.
  - split; [exact Hnd|]. intros k. rewrite !elem_of_snoc, Hiff. split.
    + intros [H1 H2]. split; [left; exact H1|]. intros [H3 | H3]; [contradiction|discriminate].
    + intros [[H1 | H1] H2]; [|congruence]. split; [exact H1|]. intros H3. apply H2. left. exact H3.
Qed.

Lemma granted_proj (r : resource_id) (j : nat) (rest : list nat) (w : World) :
  let w' := granted r j rest w in
  queue w' = queue w ++ [mkQItem (vtime_add (Fin (now w)) (Fin 0)) NORMAL (eid w) (Request r j)]
  /\ eid w' = S (eid w) /\ now w' = now w
  /\ trace w' = trace w ++ [Acquire r j]
  /\ ships w' = ships w /\ results_data w' = results_data w
  /\ arrival w' = arrival w
  /\ (forall r', users (resource r' w')
        = if decide (r' = r) then users (resource r w) ++ [j] else users (resource r' w))
  /\ (forall r', put_queue (resource r' w')
        = if decide (r' = r) then rest else put_queue (resource r' w))
  /\ (forall r', capacity (resource r' w') = capacity (resource r' w)).
Proof.
  destruct r; simpl; repeat split; intros r'; destruct r'; reflexivity.
Qed.

Lemma wake_list_granted (r : resource_id) (j : nat) (rest : list nat) (w : World) :
  put_queue (resource r w) = j :: rest ->
  wake_list (granted r j rest w) ≡ₚ wake_list w.
Proof.
  intros Epq. rewrite !wake_list_of.
  destruct r; simpl in *; rewrite Epq; rewrite wake_of_snoc; simpl.
  - rewrite wake_of_head_b. reflexivity.
  - rewrite wake_of_head_c. reflexivity.
Qed.

(** The request at the head of the queue of a resource is served. *)
Lemma granted_inv (w : World) (r : resource_id) (j : nat) (rest : list nat) :
  GInv None w -> put_queue (resource r w) = j :: rest ->
  GInv None (granted r j rest w).
Proof.
  intros G Epq.
  assert (j ∈ put_queue (resource r w)) as Hj by (rewrite Epq; apply list_elem_of_here).
  destruct (in_pq_waiting None w r j G Hj)
    as (fr & before & Hfr & _ & Hacts & Hna & Hnf & Hcont).
  destruct (granted_proj r j rest w)
    as (Hq & He & Hn & Ht & Hs & Hr & Ha & Hu & Hp & Hc).
  pose proof (wake_list_granted r j rest w Epq) as Hwl.
  set (w' := granted r j rest w) in *.
  pose proof (queue_ok_snoc (now w) (eid w) (queue w) (Request r j) NORMAL 0
                (GInv_queue_ok _ _ G) ltac:(lia) ltac:(reflexivity)) as (Q1 & Q2 & Q3 & Q4).
  assert (None <> Some ArrivalProc) as Hna' by discriminate.
  assert (forall k, k <> j -> ext_for k w w') as Hext.
  { intros k Hk. split; [lia|]. split; [|split; [|split]].
    - rewrite Ht. apply acts_snoc_other. simpl. congruence.
    - intros it Hit _. rewrite Hq. apply elem_of_app. left. exact Hit.
    - intros r' Hr'. rewrite Hp. destruct (decide (r' = r)) as [-> | _]; [|exact Hr'].
      rewrite Epq in Hr'. apply elem_of_cons in Hr' as [-> | Hr']; [contradiction|exact Hr'].
    - rewrite Hwl. auto. }
  constructor.
  - rewrite Hq. exact Q1.
  - rewrite Hq, He. exact Q2.
  - rewrite Hq, Hn. exact Q3.
  - rewrite Hq, Hn. exact Q4.
  - rewrite Hwl. exact (g_wake G).
  - intros k Hk. rewrite Hs. rewrite Hwl in Hk. exact (g_wake_lt G k Hk).
  - intros p Hp'. discriminate.
  - intros k Hk. rewrite Hs in Hk. rewrite Ht.
    rewrite acts_snoc_other; [exact (g_acts G k Hk)|].
    simpl. apply lookup_lt_Some in Hfr. lia.
  - intros r'. rewrite Hu, Ht.
    destruct (g_users G r') as [Hnd Hiff].
    assert (r' = r -> (Acquire r j ∉ trace w) /\ (Free r j ∉ trace w)) as Hnew.
    { intros _. split; intros Hx; apply in_trace_acts in Hx; simpl in Hx;
        rewrite Hacts in Hx; contradiction. }
    pose proof (users_iff_acquire (trace w) (users (resource r' w)) r r' j Hnd Hiff Hnew) as Hres.
    simpl in Hres. destruct (decide (r' = r)) as [-> | Hne]; exact Hres.
  - rewrite Hr. exact (g_results G).
  - rewrite Hr, Hs. exact (g_emitted G).
  - rewrite Ht. constructor; [exact (g_trace G)|exact I].
  - intros k fr' Hk _. rewrite Hs in Hk.
    destruct (decide (k = j)) as [-> | Hkj].
    + rewrite Hfr in Hk. injection Hk as <-. apply Hcont; [exact Hn|].
      right. split.
      * rewrite Ht, acts_snoc_same by reflexivity. rewrite Hacts. reflexivity.
      * apply in_events. eexists. split; [rewrite Hq; apply elem_of_app; right; apply list_elem_of_here|].
        reflexivity.
    + apply (ship_inv_ext w); [apply Hext; exact Hkj|].
      apply (g_ships G); [exact Hk|discriminate].
  - intros _. apply (arrival_inv_ext w).
    + exact Ha.
    + rewrite Hs. reflexivity.
    + intros it Hit _. rewrite Hq. apply elem_of_app. left. exact Hit.
    + rewrite Hwl. auto.
    + exact (g_arrival G Hna').
  - unfold events. rewrite Hq, fmap_app. apply elem_of_app. left. exact (g_until G).
  - intros it p Hit Ev. rewrite Hq in Hit. apply elem_of_snoc in Hit as [Hit | ->].
    + apply (fail_ok_ext p w); [exact Ha|exact Hs|exact (g_fail G it p Hit Ev)].
    + discriminate.
  - intros _. apply (raised_ok_ext w).
    + exact Ha.
    + rewrite Hs. reflexivity.
    + exact Hn.
    + intros it Hit. rewrite Hq. apply elem_of_app. left. exact Hit.
    + exact (g_raised G Hna').
  - intros it Hit Ev. rewrite Hq in Hit. apply elem_of_snoc in Hit as [Hit | ->].
    + exact (g_horizon G it Hit Ev).
    + discriminate.
Qed.

(** [_trigger_put] keeps the invariant. *)
Lemma trigger_put_inv (w : World) (r : resource_id) :
  GInv None w -> GInv None (_trigger_put r w).
Proof.
  intros G. destruct (trigger_put_cases r w) as [-> | (j & rest & Epq & _ & ->)].
  - exact G.
  - apply granted_inv; assumption.
Qed.

(** *** Requests, timeouts and releases *)

(** The running ship asks for a resource. *)
Lemma request_inv (w : World) (r : resource_id) (i : nat) (fr : ShipFrame) :
  GInv (Some (ShipProc i)) w -> ships w !! i = Some fr ->
  (forall w', now w' = now w -> waiting r i (acts i (trace w)) w' -> ship_inv w' i fr) ->
  GInv None (request r i w).
Proof.
  intros G Hfr Hcont. unfold request. apply trigger_put_inv.
  eapply enqueue_inv; [reflexivity|exact G|exact Hfr|].
  apply Hcont; [destruct r; reflexivity|].
  left. split; [destruct r; reflexivity|].
  destruct r; simpl; apply elem_of_app; right; apply list_elem_of_here.
Qed.

(** An event is scheduled: either one that wakes nobody, or the one the
    running process will wait for. *)
Lemma schedule_inv (run run' : option proc_id) (w : World) (ev : event) (pr : nat) (d : Z) :
  GInv run w -> 0 <= d -> (instant ev = true -> d = 0) ->
  (forall p, ev = Process p false -> fail_ok p w) -> ev <> Until ->
  match target ev with
  | None => run' = run
  | Some p =>
      run = Some p /\ run' = None
      /\ (forall i, p = ShipProc i ->
            exists fr, ships w !! i = Some fr
                       /\ ship_inv (schedule ev pr (Fin d) w) i fr)
      /\ (p = ArrivalProc ->
            arrival_inv (schedule ev pr (Fin d) w)
            /\ raised_ok (schedule ev pr (Fin d) w))
  end ->
  GInv run' (schedule ev pr (Fin d) w).
Proof.
  intros G Hd Hi Hfl Hnu Ht.
  pose proof (queue_ok_snoc (now w) (eid w) (queue w) ev pr d
                (GInv_queue_ok _ _ G) Hd Hi) as (Q1 & Q2 & Q3 & Q4).
  pose proof (wake_list_schedule w ev pr (Fin d)) as Hwl.
  set (w' := schedule ev pr (Fin d) w) in *.
  assert (forall k, run <> Some (ShipProc k) -> ext_for k w w') as Hext.
  { intros k Hk. split; [simpl; lia|]. split; [reflexivity|]. split; [|split].
    - intros it Hit _. simpl. apply elem_of_app. left. exact Hit.
    - intros r Hr. destruct r; exact Hr.
    - rewrite Hwl. intros Hn Hc. apply elem_of_app in Hc as [Hc | Hc]; [|auto].
      destruct (target ev) as [p|]; [|inversion Hc].
      apply list_elem_of_singleton in Hc as <-. destruct Ht as [Hr _]. auto. }
  constructor.
  - exact Q1.
  - exact Q2.
  - exact Q3.
  - exact Q4.
  - rewrite Hwl. destruct (target ev) as [p|]; simpl; [|exact (g_wake G)].
    apply NoDup_cons. split; [|exact (g_wake G)]. apply (g_run G). apply Ht.
  - intros j Hj. simpl. rewrite Hwl in Hj. apply elem_of_app in Hj as [Hj | Hj].
    + destruct (target ev) as [p|]; [|inversion Hj].
      apply list_elem_of_singleton in Hj as <-.
      destruct Ht as (_ & _ & Hs & _). destruct (Hs j eq_refl) as (fr & Hfr & _).
      eapply lookup_lt_Some; eauto.
    + exact (g_wake_lt G j Hj).
  - intros p Hp. rewrite Hwl. destruct (target ev) as [p'|].
    + destruct Ht as (_ & Hr & _). congruence.
    + simpl. apply (g_run G). congruence.
  - exact (g_acts G).
  - exact (g_users G).
  - exact (g_results G).
  - exact (g_emitted G).
  - exact (g_trace G).
  - intros j fr Hj Hne. simpl in Hj.
    destruct (decide (run = Some (ShipProc j))) as [Hr | Hr].
    + destruct (target ev) as [p|]; [|congruence].
      destruct Ht as (Hr' & _ & Hs & _).
      assert (p = ShipProc j) as -> by congruence.
      destruct (Hs j eq_refl) as (fr' & Hfr' & Hinv).
      rewrite Hj in Hfr'. injection Hfr' as <-. exact Hinv.
    + apply (ship_inv_ext w); [exact (Hext j Hr)|exact (g_ships G j fr Hj Hr)].
  - intros Hne.
    destruct (decide (run = Some ArrivalProc)) as [Hr | Hr].
    + destruct (target ev) as [p|]; [|congruence].
      destruct Ht as (Hr' & _ & _ & Ha). apply Ha. congruence.
    + apply (arrival_inv_ext w); try reflexivity.
      * intros it Hit _. simpl. apply elem_of_app. left. exact Hit.
      * rewrite Hwl. intros Hn Hc. apply elem_of_app in Hc as [Hc | Hc]; [|auto].
        destruct (target ev) as [p|]; [|inversion Hc].
        apply list_elem_of_singleton in Hc as <-. destruct Ht as [Hr' _]. auto.
      * exact (g_arrival G Hr).
  - unfold events. simpl. rewrite fmap_app. apply elem_of_app. left. exact (g_until G).
  - intros it p Hit Ev. simpl in Hit. apply elem_of_snoc in Hit as [Hit | ->].
    + exact (g_fail G it p Hit Ev).
    + simpl in Ev. exact (Hfl p Ev).
  - intros Hne.
    destruct (decide (run = Some ArrivalProc)) as [Hr | Hr].
    + destruct (target ev) as [p|]; [|congruence].
      destruct Ht as (Hr' & _ & _ & Ha). apply Ha. congruence.
    + apply (raised_ok_ext w); try reflexivity.
      * intros it Hit. simpl. apply elem_of_app. left. exact Hit.
      * exact (g_raised G Hr).
  - intros it Hit Ev. simpl in Hit. apply elem_of_snoc in Hit as [Hit | ->].
    + exact (g_horizon G it Hit Ev).
    + simpl in Ev. contradiction.
Qed.

(** The arrival process is settled again. *)
Lemma settle_arrival (w : World) :
  GInv (Some ArrivalProc) w -> arrival_inv w -> raised_ok w -> GInv None w.
Proof.
  intros G Ha Hr. constructor; try keep G.
  - intros j fr Hj _. apply (g_ships G j fr Hj). discriminate.
  - intros _. exact Ha.
  - intros _. exact Hr.
Qed.

Lemma list_remove_spec (i : nat) (l : list nat) :
  NoDup l ->
  NoDup (list_remove i l) /\ forall k, k ∈ list_remove i l <-> (k ∈ l /\ k <> i).
Proof.
  induction l as [|x l IH]; intros Hnd; simpl.
  - split; [constructor|]. intros k. split; [inversion 1|intros [H _]; inversion H].
  - apply NoDup_cons in Hnd as [Hx Hnd]. destruct (IH Hnd) as [IH1 IH2].
    destruct (x =? i)%nat eqn:E.
    + apply Nat.eqb_eq in E. subst x. split; [exact Hnd|].
      intros k. rewrite elem_of_cons. split.
      * intros Hk. split; [right; exact Hk|]. intros ->. contradiction.
      * intros [[-> | Hk] Hne]; [contradiction|exact Hk].
    + apply Nat.eqb_neq in E. split.
      * apply NoDup_cons. split; [|exact IH1]. rewrite IH2. tauto.
      * intros k. rewrite !elem_of_cons, IH2. split.
        -- intros [-> | [Hk Hne]]; [split; [left; reflexivity|exact E]|split; [right; exact Hk|exact Hne]].
        -- intros [[-> | Hk] Hne]; [left; reflexivity|right; split; assumption].
Qed.

(** The running ship gives back its unit of a resource. *)
Lemma release_inv (w : World) (r : resource_id) (i : nat) :
  GInv (Some (ShipProc i)) w -> (i < length (ships w))%nat ->
  allowed (trace w) (Free r i) ->
  GInv (Some (ShipProc i)) (release r i w).
Proof.
  intros G Hi Hal. unfold release, succeed.
  apply (schedule_inv (Some (ShipProc i))); [|lia|reflexivity|discriminate|discriminate|reflexivity].
  set (x := resource r w).
  set (w1 := set_resource r (mkResource (capacity x) (list_remove i (users x)) (put_queue x)) w).
  assert (Some (ShipProc i) <> Some ArrivalProc) as Hna by discriminate.
  assert (wake_list (record (Free r i) w1) = wake_list w) as Hwl
    by (subst w1 x; destruct r; reflexivity).
  assert (queue (record (Free r i) w1) = queue w) as Hq
    by (subst w1 x; destruct r; reflexivity).
  assert (forall k, k <> i -> ext_for k w (record (Free r i) w1)) as Hext.
  { intros k Hk. split; [subst w1; destruct r; simpl; lia|].
    split; [|split; [|split]].
    - subst w1. destruct r; simpl; apply acts_snoc_other; simpl; congruence.
    - rewrite Hq. auto.
    - intros r' Hr'. subst w1 x. destruct r, r'; exact Hr'.
    - rewrite Hwl. auto. }
  constructor.
  - rewrite Hq. exact (g_eids G).
  - rewrite Hq. subst w1. destruct r; exact (g_eid_lt G).
  - rewrite Hq. subst w1. destruct r; exact (g_clock G).
  - rewrite Hq. subst w1. destruct r; exact (g_instant G).
  - rewrite Hwl. exact (g_wake G).
  - rewrite Hwl. subst w1. destruct r; exact (g_wake_lt G).
  - rewrite Hwl. exact (g_run G).
  - intros j Hj.
    assert (acts j (trace w) = []) as Hold
      by (apply (g_acts G); subst w1; destruct r; exact Hj).
    assert (i <> j) by (subst w1; destruct r; simpl in Hj; lia).
    subst w1. destruct r; simpl; rewrite acts_snoc_other by (simpl; congruence); exact Hold.
  - intros r'. destruct (g_users G r') as [Hnd Hiff].
    destruct (list_remove_spec i _ Hnd) as [Hnd' Hiff'].
    assert (trace (record (Free r i) w1) = trace w ++ [Free r i]) as Ht
      by (subst w1; destruct r; reflexivity).
    rewrite Ht.
    destruct (decide (r' = r)) as [-> | Hne].
    + replace (users (resource r (record (Free r i) w1)))
        with (list_remove i (users (resource r w)))
        by (subst w1 x; destruct r; reflexivity).
      split; [exact Hnd'|]. intros k. rewrite Hiff', Hiff, !elem_of_snoc. split.
      * intros [[H1 H2] H3]. split; [left; exact H1|].
        intros [H4 | H4]; [contradiction|congruence].
      * intros [[H1 | H1] H2]; [|discriminate]. split; [split|].
        -- exact H1.
        -- intros H3. apply H2. left. exact H3.
        -- intros ->. apply H2. right. reflexivity.
    + replace (users (resource r' (record (Free r i) w1)))
        with (users (resource r' w))
        by (subst w1 x; destruct r, r'; try reflexivity; contradiction).
      split; [exact Hnd|]. intros k. rewrite Hiff, !elem_of_snoc. split.
      * intros [H1 H2]. split; [left; exact H1|].
        intros [H4 | H4]; [contradiction|congruence].
      * intros [[H1 | H1] H2]; [|discriminate]. split; [exact H1|].
        intros H3. apply H2. left. exact H3.
  - subst w1. destruct r; exact (g_results G).
  - subst w1. destruct r; exact (g_emitted G).
  - replace (trace (record (Free r i) w1)) with (trace w ++ [Free r i])
      by (subst w1; destruct r; reflexivity).
    constructor; [exact (g_trace G)|exact Hal].
  - intros j fr Hj Hne.
    assert (ships w !! j = Some fr) as Hj' by (subst w1; destruct r; exact Hj).
    apply (ship_inv_ext w); [apply Hext; congruence|exact (g_ships G j fr Hj' Hne)].
  - intros _. apply (arrival_inv_ext w).
    + subst w1. destruct r; reflexivity.
    + subst w1. destruct r; reflexivity.
    + rewrite Hq. auto.
    + rewrite Hwl. auto.
    + exact (g_arrival G Hna).
  - unfold events. rewrite Hq. exact (g_until G).
  - intros it p Hit Ev. rewrite Hq in Hit. apply (fail_ok_ext p w).
    + subst w1. destruct r; reflexivity.
    + subst w1. destruct r; reflexivity.
    + exact (g_fail G it p Hit Ev).
  - intros _. apply (raised_ok_ext w).
    + subst w1. destruct r; reflexivity.
    + subst w1. destruct r; reflexivity.
    + subst w1. destruct r; reflexivity.
    + rewrite Hq. auto.
    + exact (g_raised G Hna).
  - rewrite Hq. exact (g_horizon G).
Qed.

(** *** Results and new ships *)

Lemma users_iff_other (tr : list action) (us : list nat) (r : resource_id) (a : action) :
  (forall k, a <> Acquire r k) -> (forall k, a <> Free r k) ->
  (forall k, k ∈ us <-> (Acquire r k ∈ tr /\ Free r k ∉ tr)) ->
  forall k, k ∈ us <-> (Acquire r k ∈ tr ++ [a] /\ Free r k ∉ tr ++ [a]).
Proof.
  intros Ha Hf Hiff k. rewrite Hiff, !elem_of_snoc. split.
  - intros [H1 H2]. split; [left; exact H1|]. intros [H3 | H3]; [contradiction|].
    symmetry in H3. exact (Hf k H3).
  - intros [[H1 | H1] H2].
    + split; [exact H1|]. intros H3. apply H2. left. exact H3.
    + symmetry in H1. destruct (Ha k H1).
Qed.

(** The running ship appends its dictionary to the results and returns. *)
Lemma emit_inv (w : World) (i : nat) (fr : ShipFrame) (d : ShipData) :
  GInv (Some (ShipProc i)) w -> ships w !! i = Some fr ->
  sf_gen fr <> GenReturned -> sf_gen fr <> GenRaised -> record_ok unload_time d ->
  allowed (trace w) (Emit i) ->
  (exists a b c e, acts i (trace w) ++ [Emit i] = tr_done i a b c e) ->
  GInv None
    (set_ship_gen i GenReturned
       (record (Emit i) (set_results_data (results_data w ++ [d]) w))).
Proof.
  intros G Hfr Hold Hold' Hd Hal Hacts.
  set (w1 := record (Emit i) (set_results_data (results_data w ++ [d]) w)).
  assert (set_ship_gen i GenReturned w1
          = set_ships (<[i := mkShipFrame (sf_row fr) GenReturned]> (ships w)) w1) as E.
  { unfold set_ship_gen. simpl. rewrite Hfr. reflexivity. }
  rewrite E. clear E.
  assert (Some (ShipProc i) <> Some ArrivalProc) as Hna by discriminate.
  assert (ShipProc i ∉ wake_list w) as Hni by (apply (g_run G); reflexivity).
  pose proof (lookup_lt_Some _ _ _ Hfr) as Hlt.
  constructor; try keep G.
  - simpl. intros j Hj. rewrite length_insert. exact (g_wake_lt G j Hj).
  - simpl. intros j. rewrite length_insert. intros Hj.
    rewrite acts_snoc_other by (simpl; lia). exact (g_acts G j Hj).
  - intros r. destruct (g_users G r) as [Hnd Hiff]. split.
    + destruct r; exact Hnd.
    + replace (users (resource r (set_ships (<[i:=mkShipFrame (sf_row fr) GenReturned]> (ships w)) w1)))
        with (users (resource r w)) by (destruct r; reflexivity).
      simpl. apply users_iff_other; [discriminate|discriminate|exact Hiff].
  - simpl. intros d' [Hd' | ->]%elem_of_snoc; [exact (g_results G d' Hd')|exact Hd].
  - simpl. rewrite length_app. simpl.
    pose proof (returned_count_insert (ships w) i fr GenReturned Hfr) as Hc.
    rewrite (g_emitted G). destruct (sf_gen fr); try contradiction; simpl in Hc; lia.
  - simpl. constructor; [exact (g_trace G)|exact Hal].
  - simpl. intros j fr' Hj _.
    destruct (decide (j = i)) as [-> | Hji].
    + rewrite list_lookup_insert_eq in Hj by exact Hlt. injection Hj as <-.
      unfold ship_inv. simpl. split; [exact Hni|].
      destruct Hacts as (a & b & c & e & Ha). exists a, b, c, e.
      rewrite acts_snoc_same by reflexivity. exact Ha.
    + rewrite list_lookup_insert_ne in Hj by congruence.
      apply (ship_inv_ext w).
      * split; [simpl; lia|]. split; [simpl; apply acts_snoc_other; simpl; congruence|].
        split; [auto|]. split; [intros r; destruct r; auto|auto].
      * apply (g_ships G); [exact Hj|congruence].
  - intros _. apply (arrival_inv_ext w); auto.
    + simpl. apply fmap_row_insert. exact Hfr.
    + exact (g_arrival G Hna).
  - intros it p Hit E. pose proof (g_fail G it p Hit E) as Hf.
    destruct p as [|j]; [exact Hf|]. simpl in *.
    destruct Hf as (fr0 & Hfr0 & Hg0).
    destruct (decide (j = i)) as [-> | Hji].
    + rewrite Hfr in Hfr0. injection Hfr0 as <-. contradiction.
    + exists fr0. split; [|exact Hg0]. rewrite list_lookup_insert_ne by congruence. exact Hfr0.
  - intros _. apply (raised_ok_ext w); auto.
    + simpl. apply fmap_row_insert. exact Hfr.
    + exact (g_raised G Hna).
Qed.

Lemma returned_count_snoc (l : list ShipFrame) (row : Row) :
  returned_count (l ++ [mkShipFrame row GenCreated]) = returned_count l.
Proof. unfold returned_count. rewrite sum_list_with_app. simpl. lia. Qed.

(** The arrival process starts the process of a ship. *)
Lemma spawn_inv (w : World) (row : Row) :
  GInv (Some ArrivalProc) w -> GInv (Some ArrivalProc) (spawn_ship row w).
Proof.
  intros G. unfold spawn_ship.
  set (n := length (ships w)).
  set (w0 := set_ships (ships w ++ [mkShipFrame row GenCreated]) w).
  pose proof (queue_ok_snoc (now w) (eid w) (queue w) (Initialize (ShipProc n)) URGENT 0
                (GInv_queue_ok _ _ G) ltac:(lia) ltac:(reflexivity)) as (Q1 & Q2 & Q3 & Q4).
  pose proof (wake_list_schedule w0 (Initialize (ShipProc n)) URGENT (Fin 0)) as Hwl.
  change (wake_list w0) with (wake_list w) in Hwl. simpl in Hwl.
  set (w' := schedule (Initialize (ShipProc n)) URGENT (Fin 0) w0) in *.
  assert (ShipProc n ∉ wake_list w) as Hn.
  { intros Hc. pose proof (g_wake_lt G n Hc). unfold n in *. lia. }
  constructor.
  - exact Q1.
  - exact Q2.
  - exact Q3.
  - exact Q4.
  - rewrite Hwl. apply NoDup_cons. split; [exact Hn|exact (g_wake G)].
  - intros j Hj. simpl. rewrite length_app. simpl. rewrite Hwl in Hj.
    apply elem_of_cons in Hj as [[= ->] | Hj]; [fold n; lia|].
    pose proof (g_wake_lt G j Hj). lia.
  - intros p [= <-]. rewrite Hwl. intros [[=] | Hc]%elem_of_cons.
    apply (g_run G ArrivalProc eq_refl Hc).
  - intros j Hj. simpl in *. rewrite length_app in Hj. simpl in Hj.
    apply (g_acts G). lia.
  - exact (g_users G).
  - exact (g_results G).
  - simpl. rewrite returned_count_snoc. exact (g_emitted G).
  - exact (g_trace G).
  - intros j fr Hj Hne. simpl in Hj.
    destruct (decide (j < n)%nat) as [Hlt | Hge].
    + rewrite lookup_app_l in Hj by exact Hlt.
      apply (ship_inv_ext w).
      * split; [simpl; lia|]. split; [reflexivity|]. split; [|split].
        -- intros it Hit _. simpl. apply elem_of_app. left. exact Hit.
        -- intros r. destruct r; auto.
        -- rewrite Hwl. intros Hnw [[= ->] | Hc]%elem_of_cons; [lia|auto].
      * apply (g_ships G); [exact Hj|exact Hne].
    + pose proof (lookup_lt_Some _ _ _ Hj) as Hl. rewrite length_app in Hl. simpl in Hl.
      assert (j = n) as -> by (unfold n in *; lia).
      rewrite lookup_app_r in Hj by (unfold n; lia).
      replace (n - length (ships w))%nat with 0%nat in Hj by (unfold n; lia).
      simpl in Hj. injection Hj as <-.
      unfold ship_inv. simpl. split.
      * apply (g_acts G). unfold n. lia.
      * apply in_events. eexists. split; [simpl; apply elem_of_app; right; apply list_elem_of_here|].
        reflexivity.
  - intros Hc. congruence.
  - unfold events. simpl. rewrite fmap_app. apply elem_of_app. left. exact (g_until G).
  - intros it p Hit Ev. simpl in Hit. apply elem_of_snoc in Hit as [Hit | ->]; [|discriminate].
    pose proof (g_fail G it p Hit Ev) as Hf.
    destruct p as [|j]; [exact Hf|]. simpl in *.
    destruct Hf as (fr0 & Hfr0 & Hg0). exists fr0. split; [|exact Hg0].
    rewrite lookup_app_l by (eapply lookup_lt_Some; eauto). exact Hfr0.
  - intros Hc. congruence.
  - intros it Hit Ev. simpl in Hit. apply elem_of_snoc in Hit as [Hit | ->]; [|discriminate].
    exact (g_horizon G it Hit Ev).
Qed.

(** The frame of the arrival process moves to its next point. *)
Lemma set_arrival_inv (w : World) (a : arrival_gen) :
  GInv (Some ArrivalProc) w -> arrival w <> ArrRaised ->
  GInv (Some ArrivalProc) (set_arrival a w).
Proof.
  intros G Hold. constructor; try keep G.
  - intros Hne. congruence.
  - intros it p Hit Ev. pose proof (g_fail G it p Hit Ev) as Hf.
    destruct p as [|j]; [contradiction|exact Hf].
  - intros Hne. congruence.
Qed.

(** *** Resuming a ship *)

(** Setting the frame of a ship commutes with what touches the rest of the
    world. *)
Lemma set_ship_gen_record (i : nat) (g : ship_gen) (a : action) (w : World) :
  set_ship_gen i g (record a w) = record a (set_ship_gen i g w).
Proof. unfold set_ship_gen. simpl. destruct (ships w !! i); reflexivity. Qed.

Lemma set_ship_gen_schedule (i : nat) (g : ship_gen) (ev : event) (pr : nat) (d : vtime)
    (w : World) :
  set_ship_gen i g (schedule ev pr d w) = schedule ev pr d (set_ship_gen i g w).
Proof. unfold set_ship_gen. simpl. destruct (ships w !! i); reflexivity. Qed.

Lemma set_ship_gen_request (i : nat) (g : ship_gen) (r : resource_id) (k : nat) (w : World) :
  set_ship_gen i g (request r k w) = request r k (set_ship_gen i g w).
Proof.
  unfold set_ship_gen. rewrite ships_request.
  destruct (ships w !! i) as [fr|]; [|reflexivity].
  unfold request, _trigger_put, _do_put.
  destruct r; simpl;
    (destruct (put_queue _ ++ [k]) as [|j rest]; [reflexivity|]);
    (destruct (_ <? _); reflexivity).
Qed.

Lemma now_set_ship_gen (i : nat) (g : ship_gen) (w : World) :
  now (set_ship_gen i g w) = now w.
Proof. unfold set_ship_gen. destruct (ships w !! i); reflexivity. Qed.

Lemma trace_set_ship_gen (i : nat) (g : ship_gen) (w : World) :
  trace (set_ship_gen i g w) = trace w.
Proof. unfold set_ship_gen. destruct (ships w !! i); reflexivity. Qed.

Lemma trace_release (r : resource_id) (i : nat) (w : World) :
  trace (release r i w) = trace w ++ [Free r i].
Proof. destruct r; reflexivity. Qed.

Lemma now_release (r : resource_id) (i : nat) (w : World) :
  now (release r i w) = now w.
Proof. destruct r; reflexivity. Qed.

Lemma results_release (r : resource_id) (i : nat) (w : World) :
  results_data (release r i w) = results_data w.
Proof. destruct r; reflexivity. Qed.

Lemma set_ship_gen_lookup (i : nat) (g : ship_gen) (w : World) (fr : ShipFrame) :
  ships w !! i = Some fr ->
  ships (set_ship_gen i g w) !! i = Some (mkShipFrame (sf_row fr) g).
Proof.
  intros H. unfold set_ship_gen. rewrite H. simpl.
  apply list_lookup_insert_eq. eapply lookup_lt_Some; eauto.
Qed.

Lemma in_acts_trace (i : nat) (tr : list action) (a : action) :
  a ∈ acts i tr -> a ∈ tr.
Proof. intros H. apply elem_of_acts in H as [_ H]. exact H. Qed.

Lemma not_in_acts_trace (tr : list action) (a : action) :
  a ∉ acts (ship_of a) tr -> a ∉ tr.
Proof. intros H Hc. apply H. apply (proj1 (in_trace_acts tr a)). exact Hc. Qed.

(** Resuming a ship at the point where it is suspended keeps the
    invariant. *)
Lemma ship_process_inv (w : World) (i : nat) (fr : ShipFrame) (it : QItem) :
  GInv (Some (ShipProc i)) w -> ships w !! i = Some fr ->
  resumable unload_time w i fr it -> q_time it = Fin (now w) ->
  GInv None (ship_process unload_time i w).
Proof.
  intros G Hfr Hres Htime.
  pose proof (lookup_lt_Some _ _ _ Hfr) as Hlt.
  assert (ShipProc i ∉ wake_list w) as Hni by (apply (g_run G); reflexivity).
  unfold ship_process. rewrite Hfr. unfold resumable in Hres.
  destruct (sf_gen fr) as [|d|d|d| |] eqn:Hg; try contradiction.
  - (* the ship arrives *)
    rewrite set_ship_gen_request, set_ship_gen_record.
    set (g := GenAtBerth _).
    assert (GInv (Some (ShipProc i)) (set_ship_gen i g w)) as G1.
    { eapply set_gen_inv; [exact G|exact Hfr|congruence|congruence|subst g; discriminate|left; reflexivity]. }
    pose proof (set_ship_gen_lookup i g w fr Hfr) as Hfr1.
    assert (GInv (Some (ShipProc i)) (record (Stamp i ARRIVED (now w)) (set_ship_gen i g w))) as G2.
    { apply record_stamp_inv; [exact G1| |exact I].
      eapply lookup_lt_Some; eauto. }
    eapply request_inv; [exact G2|exact Hfr1|].
    intros w' Hn Hw. unfold ship_inv. simpl. exists (now w).
    simpl in Hn, Hw. rewrite now_set_ship_gen in Hn. rewrite trace_set_ship_gen in Hw.
    split; [reflexivity|]. split; [lia|].
    rewrite acts_snoc_same, Hres in Hw by reflexivity. exact Hw.
  - (* the ship docks *)
    destruct Hres as (a & Hd & Hle & Hacts).
    rewrite set_ship_gen_request, set_ship_gen_record.
    set (g := GenAtCrane _).
    assert (GInv (Some (ShipProc i)) (set_ship_gen i g w)) as G1.
    { eapply set_gen_inv; [exact G|exact Hfr|congruence|congruence|subst g; discriminate|left; reflexivity]. }
    pose proof (set_ship_gen_lookup i g w fr Hfr) as Hfr1.
    assert (GInv (Some (ShipProc i)) (record (Stamp i DOCKED (now w)) (set_ship_gen i g w))) as G2.
    { apply record_stamp_inv; [exact G1| |exact I].
      eapply lookup_lt_Some; eauto. }
    eapply request_inv; [exact G2|exact Hfr1|].
    intros w' Hn Hw. unfold ship_inv. simpl. exists a, (now w).
    simpl in Hn, Hw. rewrite now_set_ship_gen in Hn. rewrite trace_set_ship_gen in Hw.
    split; [rewrite Hd; reflexivity|]. split; [lia|]. split; [lia|].
    rewrite acts_snoc_same, Hacts in Hw by reflexivity.
    unfold tr_docked. rewrite <- app_assoc in Hw. exact Hw.
  - (* the ship has its crane *)
    destruct Hres as (a & b & Hd & Hab & Hle & Hacts).
    destruct (row_cargo_containers (sf_row fr) * unload_time <? 0) eqn:Edur.
    + (* the delay is negative: both with blocks are left *)
      set (t := now w).
      set (w1 := record (Stamp i CRANE_SECURED t) w).
      assert (GInv (Some (ShipProc i)) w1) as G1
        by (apply record_stamp_inv; [exact G|exact Hlt|exact I]).
      assert (GInv (Some (ShipProc i)) (release Cranes i w1)) as G2
        by (apply release_inv; [exact G1|exact Hlt|exact I]).
      set (w2 := release Cranes i w1) in *.
      assert (trace w2 = trace w ++ [Stamp i CRANE_SECURED t; Free Cranes i]) as Ht2.
      { unfold w2. rewrite trace_release. unfold w1. simpl. rewrite <- app_assoc. reflexivity. }
      assert (acts i (trace w2) = tr_secured i a b t ++ [Free Cranes i]) as Ha2.
      { unfold w2. rewrite trace_release. unfold w1. simpl.
        rewrite !acts_snoc_same, Hacts by reflexivity.
        unfold tr_secured. rewrite <- !app_assoc. reflexivity. }
      assert (GInv (Some (ShipProc i)) (release Berths i w2)) as G3.
      { apply release_inv; [exact G2|exact Hlt|].
        unfold allowed. split; [rewrite Ht2; exists (trace w ++ [Stamp i CRANE_SECURED t]);
                       rewrite <- app_assoc; reflexivity|]. split.
        - apply (in_acts_trace i). rewrite Ha2.
          unfold tr_secured, tr_docked, tr_arrived. set_solver.
        - apply not_in_acts_trace. simpl ship_of. rewrite Ha2. apply not_in_tr.
          unfold tr_secured, tr_docked, tr_arrived. simpl.
          repeat constructor; discriminate. }
      set (w3 := release Berths i w2) in *.
      unfold finish.
      assert (ships w3 !! i = Some fr) as Hfr3.
      { unfold w3, w2. rewrite !ships_release. exact Hfr. }
      apply (schedule_inv None); [|lia|reflexivity| |discriminate|reflexivity].
      2:{ intros p [= <-]. simpl. exists (mkShipFrame (sf_row fr) GenRaised).
          split; [|reflexivity]. apply set_ship_gen_lookup. exact Hfr3. }
      eapply set_gen_inv; [exact G3|exact Hfr3|congruence|congruence|discriminate|].
      right. split; [reflexivity|].
      unfold ship_inv. simpl. split; [|split].
      * unfold set_ship_gen. rewrite Hfr3.
        apply (g_run G3). reflexivity.
      * apply Z.ltb_lt. exact Edur.
      * exists a, b, t. rewrite trace_set_ship_gen.
        unfold w3. rewrite trace_release.
        rewrite acts_snoc_same, Ha2 by reflexivity.
        unfold tr_failed, tr_leave. rewrite <- app_assoc. reflexivity.
    + (* the unloading starts *)
      apply Z.ltb_ge in Edur.
      rewrite set_ship_gen_schedule, set_ship_gen_record.
      set (g := GenAtUnload _).
      assert (GInv (Some (ShipProc i)) (set_ship_gen i g w)) as G1.
      { eapply set_gen_inv; [exact G|exact Hfr|congruence|congruence|subst g; discriminate|left; reflexivity]. }
      pose proof (set_ship_gen_lookup i g w fr Hfr) as Hfr1.
      assert (GInv (Some (ShipProc i)) (record (Stamp i CRANE_SECURED (now w)) (set_ship_gen i g w))) as G2.
      { apply record_stamp_inv; [exact G1| |exact I].
        eapply lookup_lt_Some; eauto. }
      apply (schedule_inv (Some (ShipProc i))); [exact G2|exact Edur|discriminate|discriminate|discriminate|].
      simpl. split; [reflexivity|]. split; [reflexivity|]. split; [|discriminate].
      intros k [= <-]. eexists. split; [exact Hfr1|].
      unfold ship_inv. simpl. exists a, b, (now w).
      split; [rewrite Hd; reflexivity|].
      rewrite now_set_ship_gen, trace_set_ship_gen.
      split; [lia|]. split; [lia|]. split; [lia|]. split.
      * rewrite acts_snoc_same, Hacts by reflexivity.
        unfold tr_secured. rewrite <- app_assoc. reflexivity.
      * eexists. split; [apply elem_of_app; right; apply list_elem_of_here|].
        split; [reflexivity|]. simpl. rewrite now_set_ship_gen. reflexivity.
  - (* the unloading is over *)
    destruct Hres as (a & b & c & Hd & Hab & Hbc & Hle & Hacts & Hit).
    assert (now w = c + row_cargo_containers (sf_row fr) * unload_time) as Hnow by congruence.
    set (t := now w) in *.
    set (w1 := record (Stamp i UNLOADING_COMPLETE t) w).
    assert (GInv (Some (ShipProc i)) w1) as G1
      by (apply record_stamp_inv; [exact G|exact Hlt|exact I]).
    assert (GInv (Some (ShipProc i)) (release Cranes i w1)) as G2
      by (apply release_inv; [exact G1|exact Hlt|exact I]).
    set (w2 := release Cranes i w1) in *.
    assert (trace w2 = trace w ++ [Stamp i UNLOADING_COMPLETE t; Free Cranes i]) as Ht2.
    { unfold w2. rewrite trace_release. unfold w1. simpl. rewrite <- app_assoc. reflexivity. }
    assert (acts i (trace w2)
            = tr_secured i a b c ++ [Stamp i UNLOADING_COMPLETE t; Free Cranes i]) as Ha2.
    { unfold w2. rewrite trace_release. unfold w1. simpl.
      rewrite !acts_snoc_same, Hacts by reflexivity.
      rewrite <- !app_assoc. reflexivity. }
    assert (GInv (Some (ShipProc i)) (release Berths i w2)) as G3.
    { apply release_inv; [exact G2|exact Hlt|].
      unfold allowed. split; [rewrite Ht2; exists (trace w ++ [Stamp i UNLOADING_COMPLETE t]);
                     rewrite <- app_assoc; reflexivity|]. split.
      - apply (in_acts_trace i). rewrite Ha2.
        unfold tr_secured, tr_docked, tr_arrived. set_solver.
      - apply not_in_acts_trace. simpl ship_of. rewrite Ha2. apply not_in_tr.
        unfold tr_secured, tr_docked, tr_arrived. simpl.
        repeat constructor; discriminate. }
    set (w3 := release Berths i w2) in *.
    assert (trace w3 = trace w ++ Stamp i UNLOADING_COMPLETE t :: tr_leave i) as Ht3.
    { unfold w3. rewrite trace_release, Ht2. rewrite <- app_assoc. reflexivity. }
    assert (now w3 = t) as Hn3 by (unfold w3, w2; rewrite !now_release; reflexivity).
    rewrite Hn3.
    assert (GInv (Some (ShipProc i)) (record (Stamp i DEPARTED t) w3)) as G4.
    { apply record_stamp_inv; [exact G3|exact Hlt|].
      unfold allowed. rewrite Ht3. apply ends_with_app. }
    set (w4 := record (Stamp i DEPARTED t) w3) in *.
    assert (trace w4 = trace w ++ Stamp i UNLOADING_COMPLETE t :: tr_leave i
                               ++ [Stamp i DEPARTED t]) as Ht4.
    { change (trace w4) with (trace w3 ++ [Stamp i DEPARTED t]).
      rewrite Ht3. rewrite <- app_assoc. reflexivity. }
    unfold finish.
    apply (schedule_inv None); [|lia|reflexivity|discriminate|discriminate|reflexivity].
    assert (ships w4 !! i = Some fr) as Hfr4.
    { change (ships w4) with (ships w3). unfold w3, w2. rewrite !ships_release. exact Hfr. }
    apply (emit_inv w4 i fr); [exact G4|exact Hfr4|congruence|congruence| | |].
    + rewrite Hd. exists b, c, t. simpl. repeat split; auto; lia.
    + unfold allowed. exists t. rewrite Ht4. apply ends_with_app.
    + exists a, b, c, t.
      assert (acts i (trace w4) = tr_secured i a b c
                ++ Stamp i UNLOADING_COMPLETE t :: tr_leave i ++ [Stamp i DEPARTED t]) as Ha4.
      { change (trace w4) with (trace w3 ++ [Stamp i DEPARTED t]).
        unfold w3. rewrite trace_release.
        rewrite !acts_snoc_same, Ha2 by reflexivity.
        rewrite <- !app_assoc. reflexivity. }
      rewrite Ha4. unfold tr_done. rewrite <- !app_assoc. reflexivity.
Qed.

(** *** One step of the loop *)

Lemma last_cons_default (l : list Z) (y d : Z) :
  List.last (y :: l) d = List.last l y.
Proof.
  revert y d. induction l as [|z l IH]; intros y d; [reflexivity|].
  change (List.last (y :: z :: l) d) with (List.last (z :: l) d).
  rewrite (IH z d), (IH z y). reflexivity.
Qed.

Lemma ascending_snoc (lo x : Z) (l : list Z) :
  ascending lo l -> List.last l lo <= x -> ascending lo (l ++ [x]).
Proof.
  revert lo. induction l as [|y l IH]; intros lo Hl Hx.
  - simpl in *. split; [exact Hx|exact I].
  - destruct Hl as [H1 H2]. rewrite last_cons_default in Hx.
    simpl. split; [exact H1|]. apply IH; assumption.
Qed.

Lemma last_time_snoc (l : list ShipFrame) (fr : ShipFrame) :
  last_time (l ++ [fr]) = row_arrival_time_minutes (sf_row fr).
Proof.
  unfold last_time, arr_times. rewrite !fmap_app. simpl. apply last_last.
Qed.

Lemma arrival_loop_inv (w : World) (rows : list Row) :
  GInv (Some ArrivalProc) w -> arrival w <> ArrRaised ->
  arrivals_df = (sf_row <$> ships w) ++ rows ->
  ascending 0 (arr_times (sf_row <$> ships w)) ->
  now w = last_time (ships w) ->
  GInv None (arrival_loop rows w).
Proof.
  intros G Hold Hrows Hasc Hnow.
  unfold arrival_loop. destruct rows as [|row rest].
  - unfold finish.
    assert (GInv (Some ArrivalProc)
              (schedule (Process ArrivalProc true) NORMAL (Fin 0)
                 (set_arrival ArrReturned w))) as G1.
    { apply (schedule_inv (Some ArrivalProc)); [|lia|reflexivity|discriminate|discriminate|reflexivity].
      apply set_arrival_inv; assumption. }
    apply settle_arrival; [exact G1| |].
    + unfold arrival_inv. simpl. rewrite app_nil_r in Hrows.
      split; [exact Hrows|]. split; [rewrite Hrows; exact Hasc|].
      apply (g_run G1). reflexivity.
    + intros E. discriminate.
  - destruct (row_arrival_time_minutes row - now w <? 0) eqn:Ed.
    + apply Z.ltb_lt in Ed. unfold finish.
      assert (GInv (Some ArrivalProc)
                (schedule (Process ArrivalProc false) NORMAL (Fin 0)
                   (set_arrival ArrRaised w))) as G1.
      { apply (schedule_inv (Some ArrivalProc)); [|lia|reflexivity| |discriminate|reflexivity].
        - apply set_arrival_inv; assumption.
        - intros p [= <-]. reflexivity. }
      apply settle_arrival; [exact G1| |].
      * unfold arrival_inv. simpl. split; [|apply (g_run G1); reflexivity].
        exists row, rest. split; [exact Hrows|]. split; [exact Hasc|]. lia.
      * intros _. split.
        -- apply in_events. eexists.
           split; [simpl; apply elem_of_app; right; apply list_elem_of_here|reflexivity].
        -- simpl. lia.
    + apply Z.ltb_ge in Ed.
      change (set_arrival (ArrAtTimeout row rest)
                (schedule (Timeout ArrivalProc) NORMAL
                   (Fin (row_arrival_time_minutes row - now w)) w))
        with (schedule (Timeout ArrivalProc) NORMAL
                (Fin (row_arrival_time_minutes row - now w))
                (set_arrival (ArrAtTimeout row rest) w)).
      apply (schedule_inv (Some ArrivalProc)); [|exact Ed|discriminate|discriminate|discriminate|].
      * apply set_arrival_inv; assumption.
      * simpl. split; [reflexivity|]. split; [reflexivity|]. split; [discriminate|].
        intros _. split; [|intros E; discriminate].
        unfold arrival_inv. simpl. split; [exact Hrows|]. split.
        -- unfold arr_times. rewrite fmap_app. simpl. apply ascending_snoc; [exact Hasc|].
           fold (arr_times (sf_row <$> ships w)).
           change (List.last (arr_times (sf_row <$> ships w)) 0) with (last_time (ships w)).
           lia.
        -- eexists. split; [apply elem_of_app; right; apply list_elem_of_here|].
           split; [reflexivity|]. simpl. f_equal. lia.
Qed.

(** Resuming the arrival process keeps the invariant. *)
Lemma arrival_process_inv (w : World) (it : QItem) :
  GInv (Some ArrivalProc) w -> arrival_resumable arrivals_df w it ->
  q_time it = Fin (now w) ->
  GInv None (arrival_process w).
Proof.
  intros G Hres Htime. unfold arrival_process. unfold arrival_resumable in Hres.
  destruct (arrival w) as [rows|row rest| |] eqn:Ha; try contradiction.
  - destruct Hres as (-> & Hs & Ht). apply arrival_loop_inv; [exact G| | | |].
    + rewrite Ha. discriminate.
    + rewrite Hs. reflexivity.
    + rewrite Hs. exact I.
    + rewrite Hs. unfold last_time. simpl. congruence.
  - destruct Hres as (Hrows & Hasc & Ht).
    apply arrival_loop_inv; [apply spawn_inv; exact G| | | |].
    + simpl. rewrite Ha. discriminate.
    + simpl. rewrite fmap_app. simpl. rewrite <- app_assoc. exact Hrows.
    + simpl. rewrite fmap_app. exact Hasc.
    + simpl. rewrite last_time_snoc. simpl. congruence.
Qed.

Lemma resumed_arrival (w : World) (it : QItem) :
  GInv None w -> it ∈ queue w -> target (q_event it) = Some ArrivalProc ->
  arrival_resumable arrivals_df w it.
Proof.
  intros G Hit T.
  assert (ArrivalProc ∈ wake_list w) as Hw by (apply elem_of_wake_list; left; eauto).
  assert (None <> Some ArrivalProc) as Hd by discriminate.
  pose proof (g_arrival G Hd) as Ha.
  destruct (wake_list_split w _ it (g_wake G) Hit T) as [Hu _].
  unfold arrival_inv in Ha. unfold arrival_resumable.
  destruct (arrival w) as [rows|row rest| |].
  - destruct Ha as (H1 & H2 & (it' & Hit' & E & Tm)). repeat split; auto.
    rewrite <- (Hu it' Hit'); [exact Tm|]. rewrite E. reflexivity.
  - destruct Ha as (H1 & H2 & (it' & Hit' & E & Tm)). repeat split; auto.
    rewrite <- (Hu it' Hit'); [exact Tm|]. rewrite E. reflexivity.
  - destruct Ha as (_ & _ & Hn). contradiction.
  - destruct Ha as [_ Hn]. contradiction.
Qed.

Lemma resumable_later (w w1 : World) (i : nat) (fr : ShipFrame) (it : QItem) :
  trace w1 = trace w -> now w <= now w1 ->
  resumable unload_time w i fr it -> resumable unload_time w1 i fr it.
Proof.
  intros Ht Hn. unfold resumable. rewrite Ht.
  destruct (sf_gen fr); auto.
  - intros (a & H1 & H2 & H3). exists a. repeat split; auto. lia.
  - intros (a & b & H1 & H2 & H3 & H4). exists a, b. repeat split; auto. lia.
  - intros (a & b & c & H1 & H2 & H3 & H4 & H5 & H6). exists a, b, c.
    repeat split; auto. lia.
Qed.

Lemma resume_inv (w : World) (it : QItem) (q' : list QItem) (p : proc_id) :
  GInv None w -> heappop (queue w) = Some (it, q') ->
  target (q_event it) = Some p ->
  GInv None (resume unload_time p (set_now (clock_at (q_time it) w) (set_queue q' w))).
Proof.
  intros G Hpop T.
  assert (q_event it <> Until) as Hne by (intros E; rewrite E in T; discriminate).
  assert (q_event it <> Process ArrivalProc false) as Hnf
    by (intros E; rewrite E in T; discriminate).
  destruct (pop_inv w it q' G Hpop Hne Hnf) as (G1 & Htime & Hle & Hperm).
  pose proof (heappop_in _ _ _ Hpop) as Hin.
  rewrite T in G1. set (w1 := set_now _ _) in *.
  destruct p as [|i]; simpl.
  - apply (arrival_process_inv w1 it); [exact G1| |exact Htime].
    exact (resumed_arrival w it G Hin T).
  - destruct (resumed_ship w i it G Hin T) as (fr & Hfr & Hres).
    apply (ship_process_inv w1 i fr it); [exact G1|exact Hfr| |exact Htime].
    apply (resumable_later w); [reflexivity|exact Hle|exact Hres].
Qed.

(** Every step of the loop keeps the invariant. *)
Lemma step_inv (w w' : World) :
  GInv None w -> step unload_time w = Stepped w' -> GInv None w'.
Proof.
  intros G. unfold step.
  destruct (heappop (queue w)) as [[it q']|] eqn:Hpop; [|discriminate].
  destruct (q_event it) as [p|p|r i|r i|p [|]|] eqn:Eev; try discriminate; intros [= <-].
  - apply resume_inv; [exact G|exact Hpop|rewrite Eev; reflexivity].
  - apply resume_inv; [exact G|exact Hpop|rewrite Eev; reflexivity].
  - apply (resume_inv w it q' (ShipProc i)); [exact G|exact Hpop|rewrite Eev; reflexivity].
  - apply trigger_put_inv.
    assert (q_event it <> Until) as Hne by congruence.
    assert (q_event it <> Process ArrivalProc false) as Hnf by congruence.
    destruct (pop_inv w it q' G Hpop Hne Hnf) as (G1 & _). rewrite Eev in G1. exact G1.
  - assert (q_event it <> Until) as Hne by congruence.
    assert (q_event it <> Process ArrivalProc false) as Hnf by congruence.
    destruct (pop_inv w it q' G Hpop Hne Hnf) as (G1 & _). rewrite Eev in G1. exact G1.
Qed.

Lemma same_obs_refl (w : World) : same_obs w w.
Proof. repeat split. Qed.

Lemma step_same_obs (w w' : World) (e : exn) :
  step unload_time w = StopSimulation w' \/ step unload_time w = Raise e w' ->
  same_obs w w'.
Proof.
  unfold step. destruct (heappop (queue w)) as [[it q']|]; [|intros [H | H]; discriminate].
  destruct (q_event it) as [p|p|r i|r i|p [|]|];
    intros [H | H]; try discriminate; injection H as H; try rewrite <- H;
    unfold same_obs; simpl; repeat split; subst; reflexivity.
Qed.

(** Whatever ends the loop, the world it leaves shows what a world of the
    invariant shows. *)
Lemma run_loop_inv (fuel : nat) (w : World) :
  GInv None w ->
  exists w0, GInv None w0 /\
    match run_loop unload_time fuel w with
    | Returned w' => same_obs w0 w'
    | Raised e w' => same_obs w0 w'
    | OutOfFuel w' => same_obs w0 w'
    end.
Proof.
  revert w. induction fuel as [|fuel IH]; intros w G; simpl.
  - exists w. split; [exact G|apply same_obs_refl].
  - destruct (step unload_time w) as [w1|w1|e w1|] eqn:Hs.
    + apply IH. eapply step_inv; eauto.
    + exists w. split; [exact G|]. eapply (step_same_obs w w1 ValueError_capacity). left. exact Hs.
    + exists w. split; [exact G|]. eapply step_same_obs. right. exact Hs.
    + exists w. split; [exact G|apply same_obs_refl].
Qed.

(** How the loop ends: the stop event was popped, or the failure of a
    generator; the queue never runs empty.  [P] is any further property
    that the steps keep. *)
Lemma run_loop_last (P : World -> Prop) (fuel : nat) (w : World) :
  (forall w w', GInv None w -> P w -> step unload_time w = Stepped w' -> P w') ->
  GInv None w -> P w ->
  match run_loop unload_time fuel w with
  | Returned w' =>
      exists w0 it q', GInv None w0 /\ P w0
        /\ heappop (queue w0) = Some (it, q') /\ q_event it = Until
        /\ w' = popped it q' w0
  | Raised e w' =>
      e = ValueError_negative_delay
      /\ exists w0 it q' p, GInv None w0 /\ P w0
           /\ heappop (queue w0) = Some (it, q') /\ q_event it = Process p false
           /\ w' = popped it q' w0
  | OutOfFuel w' => True
  end.
Proof.
  intros HP. revert w. induction fuel as [|fuel IH]; intros w G Pw; simpl; [exact I|].
  destruct (step unload_time w) as [w1|w1|e w1|] eqn:Hs.
  - apply IH; [eapply step_inv; eauto|eapply HP; eauto].
  - unfold step in Hs. destruct (heappop (queue w)) as [[it q']|] eqn:Hpop; [|discriminate].
    exists w, it, q'.
    destruct (q_event it) as [p|p|r i|r i|p [|]|] eqn:Ev; try discriminate.
    injection Hs as <-.
    split; [exact G|]. split; [exact Pw|]. split; [exact Hpop|]. split; [first [exact Ev|reflexivity]|reflexivity].
  - unfold step in Hs. destruct (heappop (queue w)) as [[it q']|] eqn:Hpop; [|discriminate].
    destruct (q_event it) as [p|p|r i|r i|p [|]|] eqn:Ev; try discriminate.
    injection Hs as <- <-. split; [reflexivity|]. exists w, it, q', p.
    split; [exact G|]. split; [exact Pw|]. split; [exact Hpop|]. split; [first [exact Ev|reflexivity]|reflexivity].
  - exfalso. unfold step in Hs.
    destruct (heappop (queue w)) as [[it q']|] eqn:Hpop.
    + destruct (q_event it) as [p|p|r i|r i|p [|]|]; discriminate.
    + apply heappop_none in Hpop. pose proof (g_until G) as Hu.
      unfold events in Hu. rewrite Hpop in Hu. inversion Hu.
Qed.

(** When the stop event is popped nothing in the queue is due before it. *)
Lemma stop_is_least (w : World) (it : QItem) (q' : list QItem) (H : Z) :
  GInv None w -> heappop (queue w) = Some (it, q') -> q_event it = Until ->
  horizon = Fin H ->
  forall y ty, y ∈ queue w -> q_time y = Fin ty -> H <= ty.
Proof.
  intros G Hpop Ev Hh y ty Hy Ty.
  pose proof (heappop_in _ _ _ Hpop) as Hin.
  pose proof (g_horizon G it Hin Ev) as Ht. rewrite Hh in Ht.
  exact (heappop_min _ _ _ _ Hpop Ht y ty Hy Ty).
Qed.

Lemma ships_rows_prefix (w : World) :
  GInv None w -> exists rest, arrivals_df = (sf_row <$> ships w) ++ rest.
Proof.
  intros G. assert (None <> Some ArrivalProc) as Hd by discriminate.
  pose proof (g_arrival G Hd) as Ha. unfold arrival_inv in Ha.
  destruct (arrival w) as [rows|row rest| |].
  - destruct Ha as (-> & Hs & _). rewrite Hs. exists arrivals_df. reflexivity.
  - destruct Ha as (Hr & _). eauto.
  - destruct Ha as (Hr & _). exists []. rewrite app_nil_r. exact Hr.
  - destruct Ha as ((row & rest & Hr & _) & _). eauto.
Qed.

Lemma ship_row_in (w : World) (i : nat) (fr : ShipFrame) :
  GInv None w -> ships w !! i = Some fr -> sf_row fr ∈ arrivals_df.
Proof.
  intros G Hfr. destruct (ships_rows_prefix w G) as [rest ->].
  apply elem_of_app. left. apply list_elem_of_fmap_2.
  eapply list_elem_of_lookup_2; eauto.
Qed.

Lemma ascending_app_last (lo x : Z) (l1 l2 : list Z) :
  ascending lo (l1 ++ x :: l2) -> List.last l1 lo <= x.
Proof.
  revert lo. induction l1 as [|y l1 IH]; intros lo H.
  - simpl in *. tauto.
  - rewrite last_cons_default. simpl in H. destruct H as [_ H]. apply IH. exact H.
Qed.

Lemma ascending_app_l (lo : Z) (l1 l2 : list Z) :
  ascending lo (l1 ++ l2) -> ascending lo l1.
Proof.
  revert lo. induction l1 as [|y l1 IH]; intros lo H; simpl in *; [exact I|].
  destruct H as [H1 H2]. split; [exact H1|]. apply IH. exact H2.
Qed.

(** With sorted arrivals the arrival process does not raise. *)
Lemma sorted_arrival_no_raise (w : World) :
  GInv None w -> ascending 0 (arr_times arrivals_df) -> arrival w <> ArrRaised.
Proof.
  intros G Hasc E. assert (None <> Some ArrivalProc) as Hd by discriminate.
  pose proof (g_arrival G Hd) as Ha. unfold arrival_inv in Ha. rewrite E in Ha.
  destruct Ha as ((row & rest & Hr & _ & Hlt) & _).
  rewrite Hr in Hasc. unfold arr_times in Hasc. rewrite fmap_app in Hasc. simpl in Hasc.
  apply ascending_app_last in Hasc. unfold last_time, arr_times in Hlt. lia.
Qed.

(** With no negative unloading time no ship raises. *)
Lemma valid_ship_no_raise (w : World) (i : nat) (fr : ShipFrame) :
  GInv None w ->
  (forall row, row ∈ arrivals_df -> 0 <= row_cargo_containers row * unload_time) ->
  ships w !! i = Some fr -> sf_gen fr <> GenRaised.
Proof.
  intros G Hv Hfr E. assert (None <> Some (ShipProc i)) as Hd by discriminate.
  pose proof (g_ships G i fr Hfr Hd) as Hs. unfold ship_inv in Hs. rewrite E in Hs.
  destruct Hs as (_ & Hneg & _).
  pose proof (Hv _ (ship_row_in w i fr G Hfr)). lia.
Qed.

(** With valid input no failure is ever popped. *)
Lemma valid_no_failure (w : World) (it : QItem) (p : proc_id) :
  GInv None w ->
  ascending 0 (arr_times arrivals_df) ->
  (forall row, row ∈ arrivals_df -> 0 <= row_cargo_containers row * unload_time) ->
  it ∈ queue w -> q_event it = Process p false -> False.
Proof.
  intros G Hasc Hv Hit Ev. pose proof (g_fail G it p Hit Ev) as Hf.
  destruct p as [|i]; simpl in Hf.
  - exact (sorted_arrival_no_raise w G Hasc Hf).
  - destruct Hf as (fr & Hfr & Hg). exact (valid_ship_no_raise w i fr G Hv Hfr Hg).
Qed.

Lemma last_in_or_default (l : list Z) (d : Z) :
  List.last l d = d \/ List.last l d ∈ l.
Proof.
  destruct l as [|x l]; [left; reflexivity|right].
  revert x. induction l as [|y l IH]; intros x; [apply list_elem_of_here|].
  change (List.last (x :: y :: l) d) with (List.last (y :: l) d).
  apply list_elem_of_further, IH.
Qed.

Lemma last_time_le (w : World) (T : Z) :
  GInv None w -> 0 <= T ->
  (forall row, row ∈ arrivals_df -> row_arrival_time_minutes row <= T) ->
  last_time (ships w) <= T.
Proof.
  intros G HT Hle. unfold last_time.
  destruct (last_in_or_default (arr_times (sf_row <$> ships w)) 0) as [-> | Hin]; [exact HT|].
  unfold arr_times in Hin at 2. apply list_elem_of_fmap in Hin as (row & -> & Hrow).
  apply Hle. destruct (ships_rows_prefix w G) as [rest ->].
  apply elem_of_app. left. exact Hrow.
Qed.

(** When the stop event is popped and every arrival was due before it, the
    arrival process has read the whole table. *)
Lemma arrival_done_at_stop (w : World) (it : QItem) (q' : list QItem) (H T : Z) :
  GInv None w -> heappop (queue w) = Some (it, q') -> q_event it = Until ->
  horizon = Fin H -> 0 <= T -> T < H ->
  (forall row, row ∈ arrivals_df -> row_arrival_time_minutes row <= T) ->
  arrival w = ArrReturned.
Proof.
  intros G Hpop Ev Hh HT HTH Hle.
  pose proof (stop_is_least w it q' H G Hpop Ev Hh) as Hmin.
  assert (None <> Some ArrivalProc) as Hd by discriminate.
  pose proof (g_arrival G Hd) as Ha. pose proof (g_raised G Hd) as Hr.
  unfold arrival_inv in Ha. unfold raised_ok in Hr.
  destruct (arrival w) as [rows|row rest| |] eqn:Ea; [| |reflexivity|]; exfalso.
  - destruct Ha as (_ & _ & (y & Hy & _ & Ty)). specialize (Hmin y 0 Hy Ty). lia.
  - destruct Ha as (Hrows & _ & (y & Hy & _ & Ty)). specialize (Hmin y _ Hy Ty).
    assert (row ∈ arrivals_df) as Hin
      by (rewrite Hrows; apply elem_of_app; right; apply list_elem_of_here).
    specialize (Hle row Hin). lia.
  - destruct (Hr eq_refl) as [Hf Hl]. apply in_events in Hf as (y & Hy & Ey).
    assert (q_time y = Fin (now w)) as Ty
      by (apply (g_instant G y Hy); rewrite Ey; reflexivity).
    specialize (Hmin y _ Hy Ty).
    pose proof (last_time_le w T G HT Hle). lia.
Qed.

(** *** The first state *)

(** The invariant holds when the arrival process has been created and the
    stop event scheduled, whatever the time of the stop event. *)
Lemma init_inv (num_berths num_cranes : Z) (d : vtime) :
  vtime_add (Fin 0) d = horizon ->
  GInv None
    (schedule Until URGENT d
       (schedule (Initialize ArrivalProc) URGENT (Fin 0)
          (initial_world num_berths num_cranes arrivals_df []))).
Proof.
  intros Hh. constructor; simpl.
  - apply NoDup_cons. split; [|apply NoDup_singleton].
    intros H%list_elem_of_singleton. discriminate.
  - intros it [-> | ->%list_elem_of_singleton]%elem_of_cons; simpl; lia.
  - intros it [-> | ->%list_elem_of_singleton]%elem_of_cons Hne; simpl in *.
    + exists 0. split; [reflexivity|lia].
    + contradiction.
  - intros it [-> | ->%list_elem_of_singleton]%elem_of_cons Hi; simpl in *.
    + reflexivity.
    + discriminate.
  - apply NoDup_singleton.
  - intros j Hj. apply list_elem_of_singleton in Hj. discriminate.
  - intros p Hp. discriminate.
  - intros j _. reflexivity.
  - intros r. split; [destruct r; constructor|].
    intros j. split.
    + intros Hj. destruct r; inversion Hj.
    + intros [Hj _]. inversion Hj.
  - intros d' Hd. inversion Hd.
  - reflexivity.
  - constructor.
  - intros j fr Hj. discriminate.
  - intros _. unfold arrival_inv. simpl. repeat split.
    eexists. split; [apply list_elem_of_here|]. split; reflexivity.
  - unfold events. simpl. apply list_elem_of_further, list_elem_of_here.
  - intros it p [-> | ->%list_elem_of_singleton]%elem_of_cons Ev; discriminate.
  - intros _ E. discriminate.
  - intros it [-> | ->%list_elem_of_singleton]%elem_of_cons Ev; [discriminate|exact Hh].
Qed.

End Preservation.

(** What the run leaves: nothing at all when the port could not be built or
    the horizon was not in the future, otherwise what a world of the
    invariant shows. *)
Lemma run_simulation_inv (num_berths num_cranes unload_time : Z)
    (arrivals_df : list Row) (previous : list ShipData) :
  let w := world_of (run_simulation num_berths num_cranes unload_time arrivals_df previous) in
  (results_data w = [] /\ trace w = [] /\ ships w = [])
  \/ exists w0, GInv unload_time arrivals_df (horizon_of arrivals_df) None w0
                /\ same_obs w0 w.
Proof.
  unfold run_simulation.
  destruct ((num_berths <=? 0) || (num_cranes <=? 0)); [left; repeat split|].
  change (clear previous) with (@nil ShipData).
  unfold env_run.
  destruct (vtime_leb _ _); [left; repeat split|].
  right.
  match goal with |- context [run_loop _ ?f ?w] =>
    destruct (run_loop_inv unload_time arrivals_df (horizon_of arrivals_df) f w)
      as (w0 & G & Hobs)
  end.
  { apply init_inv. reflexivity. }
  exists w0. split; [exact G|].
  destruct (run_loop _ _ _); exact Hobs.
Qed.

(** ** The whole run *)

Lemma fold_max_ge (l : list Z) (x : Z) :
  x <= fold_left Z.max l x /\ forall y, y ∈ l -> y <= fold_left Z.max l x.
Proof.
  revert x. induction l as [|z l IH]; intros x; simpl.
  - split; [lia|]. intros y Hy. inversion Hy.
  - destruct (IH (Z.max x z)) as [H1 H2]. split; [lia|].
    intros y [-> | Hy]%elem_of_cons; [lia|auto].
Qed.

Lemma series_max_fin (rows : list Row) :
  rows <> [] ->
  exists T, series_max (row_arrival_time_minutes <$> rows) = Fin T
            /\ forall row, row ∈ rows -> row_arrival_time_minutes row <= T.
Proof.
  destruct rows as [|r rows]; [contradiction|]. intros _. simpl.
  eexists. split; [reflexivity|].
  destruct (fold_max_ge (row_arrival_time_minutes <$> rows) (row_arrival_time_minutes r))
    as [H1 H2].
  intros row [-> | Hrow]%elem_of_cons; [exact H1|].
  apply H2. apply list_elem_of_fmap_2. exact Hrow.
Qed.

Lemma ascending_ge (lo : Z) (l : list Z) (x : Z) :
  ascending lo l -> x ∈ l -> lo <= x.
Proof.
  revert lo. induction l as [|y l IH]; intros lo H Hx; [inversion Hx|].
  destruct H as [H1 H2]. apply elem_of_cons in Hx as [-> | Hx]; [exact H1|].
  specialize (IH y H2 Hx). lia.
Qed.

(** How a run on a table that is not empty, with a port that can be built
    and no arrival before time 0, ends: the loop starts, and either the stop
    event is popped at the horizon or the failure of a generator is. *)
Lemma run_simulation_cases (P : World -> Prop) (num_berths num_cranes unload_time : Z)
    (arrivals_df : list Row) (previous : list ShipData) :
  0 < num_berths -> 0 < num_cranes -> arrivals_df <> [] ->
  (forall row, row ∈ arrivals_df -> 0 <= row_arrival_time_minutes row) ->
  (forall w w', GInv unload_time arrivals_df (horizon_of arrivals_df) None w -> P w ->
                step unload_time w = Stepped w' -> P w') ->
  P (start_world num_berths num_cranes arrivals_df) ->
  exists T,
    series_max (row_arrival_time_minutes <$> arrivals_df) = Fin T
    /\ 0 <= T
    /\ (forall row, row ∈ arrivals_df -> row_arrival_time_minutes row <= T)
    /\ horizon_of arrivals_df = Fin (T + 20000)
    /\ exists w0 it q',
         GInv unload_time arrivals_df (horizon_of arrivals_df) None w0 /\ P w0
         /\ heappop (queue w0) = Some (it, q')
         /\ ((q_event it = Until
              /\ run_simulation num_berths num_cranes unload_time arrivals_df previous
                 = Completed (popped it q' w0)
                     (calculate_and_save_results (results_data w0)))
             \/ (exists p, q_event it = Process p false
                  /\ run_simulation num_berths num_cranes unload_time arrivals_df previous
                     = Crashed ValueError_negative_delay (popped it q' w0))).
Proof.
  intros Hb Hc Hne Hpos HP P0.
  destruct (series_max_fin arrivals_df Hne) as (T & HT & Hle).
  assert (0 <= T) as HT0.
  { destruct arrivals_df as [|r rows]; [contradiction|].
    pose proof (Hpos r (list_elem_of_here _ _)).
    pose proof (Hle r (list_elem_of_here _ _)). lia. }
  assert (horizon_of arrivals_df = Fin (T + 20000)) as Hh.
  { unfold horizon_of. rewrite HT. simpl. f_equal. lia. }
  exists T. split; [exact HT|]. split; [exact HT0|]. split; [exact Hle|]. split; [exact Hh|].
  unfold run_simulation.
  destruct (num_berths <=? 0) eqn:Eb; [lia|].
  destruct (num_cranes <=? 0) eqn:Ec; [lia|].
  simpl orb. cbv iota.
  change (clear previous) with (@nil ShipData).
  unfold env_run. rewrite HT.
  change (now (schedule (Initialize ArrivalProc) URGENT (Fin 0)
                 (initial_world num_berths num_cranes arrivals_df []))) with 0.
  assert (vtime_leb (vtime_add (Fin T) (Fin 20000)) (Fin 0) = false) as El
    by (simpl; apply Z.leb_gt; lia).
  rewrite El.
  assert (schedule Until URGENT (vtime_sub (vtime_add (Fin T) (Fin 20000)) (Fin 0))
            (schedule (Initialize ArrivalProc) URGENT (Fin 0)
               (initial_world num_berths num_cranes arrivals_df []))
          = start_world num_berths num_cranes arrivals_df) as Es
    by (unfold start_world; rewrite HT; reflexivity).
  rewrite Es.
  assert (GInv unload_time arrivals_df (horizon_of arrivals_df) None
            (start_world num_berths num_cranes arrivals_df)) as G0
    by (apply init_inv; reflexivity).
  pose proof (run_loop_last unload_time arrivals_df (horizon_of arrivals_df) P
                (S (budget (start_world num_berths num_cranes arrivals_df)))
                (start_world num_berths num_cranes arrivals_df) HP G0 P0) as Hlast.
  pose proof (run_loop_fuel unload_time
                (S (budget (start_world num_berths num_cranes arrivals_df)))
                (start_world num_berths num_cranes arrivals_df) ltac:(lia)) as Hfuel.
  destruct (run_loop unload_time _ _) as [w'|e w'|w'].
  - destruct Hlast as (w0 & it & q' & G & Pw & Hpop & Ev & ->).
    exists w0, it, q'. split; [exact G|]. split; [exact Pw|]. split; [exact Hpop|].
    left. split; [exact Ev|reflexivity].
  - destruct Hlast as (-> & w0 & it & q' & p & G & Pw & Hpop & Ev & ->).
    exists w0, it, q'. split; [exact G|]. split; [exact Pw|]. split; [exact Hpop|].
    right. exists p. split; [exact Ev|reflexivity].
  - exfalso. exact (Hfuel w' eq_refl).
Qed.

(** A run on valid input completes: the stop event is popped, and by then
    the arrival process has read the whole table. *)
Lemma valid_run_completes (P : World -> Prop) (num_berths num_cranes unload_time : Z)
    (arrivals_df : list Row) (previous : list ShipData) :
  0 < num_berths -> 0 < num_cranes -> arrivals_df <> [] ->
  ascending 0 (arr_times arrivals_df) ->
  (forall row, row ∈ arrivals_df -> 0 <= row_cargo_containers row * unload_time) ->
  (forall w w', GInv unload_time arrivals_df (horizon_of arrivals_df) None w -> P w ->
                step unload_time w = Stepped w' -> P w') ->
  P (start_world num_berths num_cranes arrivals_df) ->
  exists T w0 it q',
    series_max (row_arrival_time_minutes <$> arrivals_df) = Fin T
    /\ 0 <= T
    /\ (forall row, row ∈ arrivals_df -> row_arrival_time_minutes row <= T)
    /\ horizon_of arrivals_df = Fin (T + 20000)
    /\ GInv unload_time arrivals_df (horizon_of arrivals_df) None w0 /\ P w0
    /\ heappop (queue w0) = Some (it, q') /\ q_event it = Until
    /\ arrival w0 = ArrReturned
    /\ run_simulation num_berths num_cranes unload_time arrivals_df previous
       = Completed (popped it q' w0) (calculate_and_save_results (results_data w0)).
Proof.
  intros Hb Hc Hne Hasc Hv HP P0.
  assert (forall row, row ∈ arrivals_df -> 0 <= row_arrival_time_minutes row) as Hpos.
  { intros row Hrow. apply (ascending_ge 0 (arr_times arrivals_df)); [exact Hasc|].
    apply list_elem_of_fmap_2. exact Hrow. }
  destruct (run_simulation_cases P num_berths num_cranes unload_time arrivals_df previous
              Hb Hc Hne Hpos HP P0)
    as (T & HT & HT0 & Hle & Hh & w0 & it & q' & G & Pw & Hpop & Hend).
  exists T, w0, it, q'.
  destruct Hend as [[Ev Hrun] | (p & Ev & _)].
  - repeat (split; [assumption|]). split; [|exact Hrun].
    apply (arrival_done_at_stop unload_time arrivals_df (horizon_of arrivals_df)
             w0 it q' (T + 20000) T); auto. lia.
  - exfalso.
    apply (valid_no_failure unload_time arrivals_df (horizon_of arrivals_df) w0 it p);
      auto.
    eapply heappop_in; eauto.
Qed.

(** ** The port keeps working *)

Lemma pending_snoc (r : resource_id) (q : list QItem) (it : QItem) :
  pending_releases r (q ++ [it])
  = (pending_releases r q + if is_release r (q_event it) then 1 else 0)%nat.
Proof.
  unfold pending_releases. rewrite filter_app, length_app. f_equal.
  destruct (is_release r (q_event it)) eqn:E.
  - rewrite filter_cons_True by exact E. reflexivity.
  - rewrite filter_cons_False by (rewrite E; discriminate). reflexivity.
Qed.

Lemma pending_perm (r : resource_id) (q q' : list QItem) :
  q ≡ₚ q' -> pending_releases r q = pending_releases r q'.
Proof. intros H. unfold pending_releases. rewrite H. reflexivity. Qed.

Lemma pending_cons (r : resource_id) (q : list QItem) (it : QItem) :
  pending_releases r (it :: q)
  = ((if is_release r (q_event it) then 1 else 0) + pending_releases r q)%nat.
Proof.
  unfold pending_releases. destruct (is_release r (q_event it)) eqn:E.
  - rewrite filter_cons_True by exact E. reflexivity.
  - rewrite filter_cons_False by (rewrite E; discriminate). reflexivity.
Qed.

Lemma list_remove_length (i : nat) (l : list nat) :
  (length l <= S (length (list_remove i l)))%nat.
Proof.
  induction l as [|x l IH]; simpl; [lia|].
  destruct (x =? i)%nat; simpl; lia.
Qed.

(** *** One resource *)

Lemma live_same (B : Z) (w w' : World) :
  now w' = now w -> queue w' = queue w ->
  berths w' = berths w -> cranes w' = cranes w ->
  Live B w -> Live B w'.
Proof.
  intros Hn Hq Hb Hc [Hs Hbd]. split.
  - intros r. specialize (Hs r). rewrite Hq.
    destruct r; simpl in *; rewrite ?Hb, ?Hc; exact Hs.
  - destruct Hbd as [H1 H2]. split; [rewrite Hn; exact H1|]. rewrite Hq. exact H2.
Qed.

Lemma live_mono (B B' : Z) (w : World) : B <= B' -> Live B w -> Live B' w.
Proof.
  intros Hle [Hs [H1 H2]]. split; [exact Hs|]. split; [lia|].
  intros it Hit Hev. destruct (H2 it Hit Hev) as (t & Ht & Hle'). exists t. split; [exact Ht|lia].
Qed.

Lemma live_schedule (B : Z) (ev : event) (p : nat) (d : vtime) (w : World) :
  Live B w ->
  (forall r i, ev <> Release r i) ->
  (ev <> Until -> exists t, vtime_add (Fin (now w)) d = Fin t /\ t <= B) ->
  Live B (schedule ev p d w).
Proof.
  intros [Hs [H1 H2]] Hrel Ht. split.
  - intros r. specialize (Hs r). unfold schedule. simpl.
    rewrite pending_snoc. simpl.
    assert (is_release r ev = false) as ->.
    { destruct ev as [| | |r' i| |]; try reflexivity.
      exfalso. exact (Hrel r' i eq_refl). }
    rewrite Nat.add_0_r. destruct r; exact Hs.
  - split; [exact H1|]. unfold schedule. simpl.
    intros it [Hit | ->%list_elem_of_singleton]%elem_of_app Hev; [auto|].
    simpl in *. auto.
Qed.

Lemma live_instant (B : Z) (ev : event) (p : nat) (w : World) :
  Live B w -> (forall r i, ev <> Release r i) ->
  Live B (schedule ev p (Fin 0) w).
Proof.
  intros L Hrel. apply live_schedule; [exact L|exact Hrel|].
  intros _. exists (now w). simpl. split; [f_equal; lia|]. apply L.
Qed.

Lemma trigger_put_live (B : Z) (r : resource_id) (w : World) :
  bounded B w ->
  (forall r', 0 < capacity (resource r' w)) ->
  (forall r', r' <> r ->
     wanting (resource r' w) <= Z.of_nat (pending_releases r' (queue w))) ->
  Z.max 0 (wanting (resource r w) - 1) <= Z.of_nat (pending_releases r (queue w)) ->
  Live B (_trigger_put r w).
Proof.
  intros [Hn Hq] Hcap Hother Hr.
  unfold _trigger_put, _do_put.
  destruct (put_queue (resource r w)) as [|j rest] eqn:Epq.
  - split; [|split; assumption].
    intros r'. split; [apply Hcap|].
    destruct (decide (r' = r)) as [-> | Hd]; [|auto].
    unfold wanting in *. rewrite Epq in *. simpl in *. lia.
  - destruct (Z.of_nat (length (users (resource r w))) <? capacity (resource r w)) eqn:El.
    + apply Z.ltb_lt in El. split.
      * intros r'. specialize (Hcap r'). specialize (Hother r').
        unfold succeed, schedule. 
        assert (pending_releases r'
                  (queue w ++ [mkQItem (vtime_add (Fin (now w)) (Fin 0)) NORMAL (eid w)
                                 (Request r j)])
                = pending_releases r' (queue w)) as Ep.
        { rewrite pending_snoc. simpl. destruct r'; simpl; lia. }
        destruct r, r'; simpl in *; rewrite Ep; (split; [exact Hcap|]);
          try (apply Hother; discriminate);
          unfold wanting, free_units in *; rewrite Epq in *; simpl in *;
          rewrite ?length_app in *; simpl in *; lia.
      * split; [destruct r; exact Hn|].
        intros it Hit Hev.
        assert (it ∈ queue w ++ [mkQItem (vtime_add (Fin (now w)) (Fin 0)) NORMAL (eid w)
                                   (Request r j)]) as Hit'
          by (destruct r; exact Hit).
        apply elem_of_app in Hit' as [Hit' | ->%list_elem_of_singleton]; [auto|].
        simpl. exists (now w + 0). split; [reflexivity|lia].
    + apply Z.ltb_ge in El. split; [|split; assumption].
      intros r'. split; [apply Hcap|].
      destruct (decide (r' = r)) as [-> | Hd]; [|auto].
      unfold wanting, free_units in *. lia.
Qed.

Lemma live_request (B : Z) (r : resource_id) (i : nat) (w : World) :
  Live B w -> Live B (request r i w).
Proof.
  intros [Hs Hb]. unfold request. apply trigger_put_live.
  - destruct r; exact Hb.
  - intros r'. destruct (Hs r') as [Hc _]. destruct r, r'; exact Hc.
  - intros r' Hd. destruct (Hs r') as [_ Hw].
    destruct r, r'; try congruence; exact Hw.
  - destruct (Hs r) as [_ Hw].
    assert (wanting (resource r
              (set_resource r (mkResource (capacity (resource r w)) (users (resource r w))
                                 (put_queue (resource r w) ++ [i])) w))
            <= wanting (resource r w) + 1) as Hle.
    { destruct r; simpl; unfold wanting, free_units; simpl; rewrite length_app; simpl; lia. }
    assert (queue (set_resource r (mkResource (capacity (resource r w)) (users (resource r w))
                                 (put_queue (resource r w) ++ [i])) w) = queue w) as ->
      by (destruct r; reflexivity).
    lia.
Qed.

Lemma live_release (B : Z) (r : resource_id) (i : nat) (w : World) :
  Live B w -> Live B (release r i w).
Proof.
  intros [Hs [Hn Hq]]. unfold release, succeed, schedule. split.
  - intros r'. destruct (Hs r') as [Hc Hw].
    pose proof (list_remove_length i (users (resource r w))) as Hlen.
    destruct r, r'; simpl in *; rewrite pending_snoc; simpl;
      (split; [exact Hc|]); unfold wanting, free_units in *; simpl in *; lia.
  - split; [destruct r; exact Hn|].
    intros it Hit Hev.
    assert (it ∈ queue w ++ [mkQItem (vtime_add (Fin (now w)) (Fin 0)) NORMAL (eid w)
                               (Release r i)]) as Hit'
      by (destruct r; exact Hit).
    apply elem_of_app in Hit' as [Hit' | ->%list_elem_of_singleton]; [auto|].
    simpl. exists (now w + 0). split; [destruct r; reflexivity|lia].
Qed.

(** *** Popping an entry *)

Lemma bounded_pop (B : Z) (w : World) (it : QItem) (q' : list QItem) :
  bounded B w -> heappop (queue w) = Some (it, q') -> q_event it <> Until ->
  NoDup (q_eid <$> queue w) ->
  bounded B (popped it q' w).
Proof.
  intros [Hn Hq] Hpop Hev Hnd.
  pose proof (heappop_in _ _ _ Hpop) as Hin.
  pose proof (heappop_perm _ _ _ Hnd Hpop) as Hperm.
  split.
  - simpl. destruct (Hq it Hin Hev) as (t & -> & Ht). exact Ht.
  - simpl. intros y Hy. apply Hq. rewrite Hperm. apply list_elem_of_further, Hy.
Qed.

Lemma live_pop (B : Z) (w : World) (it : QItem) (q' : list QItem) :
  Live B w -> heappop (queue w) = Some (it, q') -> q_event it <> Until ->
  (forall r i, q_event it <> Release r i) ->
  NoDup (q_eid <$> queue w) ->
  Live B (popped it q' w).
Proof.
  intros [Hs Hb] Hpop Hev Hrel Hnd. split; [|eapply bounded_pop; eauto].
  pose proof (heappop_perm _ _ _ Hnd Hpop) as Hperm.
  intros r. destruct (Hs r) as [Hc Hw].
  rewrite (pending_perm r _ _ Hperm), pending_cons in Hw.
  assert (is_release r (q_event it) = false) as E.
  { destruct (q_event it) as [| | |r' i| |]; try reflexivity.
    exfalso. exact (Hrel r' i eq_refl). }
  rewrite E in Hw. destruct r; simpl in *; split; assumption.
Qed.

Lemma live_pop_release (B : Z) (w : World) (it : QItem) (q' : list QItem)
    (r : resource_id) (i : nat) :
  Live B w -> heappop (queue w) = Some (it, q') -> q_event it = Release r i ->
  NoDup (q_eid <$> queue w) ->
  Live B (_trigger_put r (popped it q' w)).
Proof.
  intros [Hs Hb] Hpop Hev Hnd.
  pose proof (heappop_perm _ _ _ Hnd Hpop) as Hperm.
  assert (q_event it <> Until) as Hu by (rewrite Hev; discriminate).
  apply trigger_put_live.
  - eapply bounded_pop; eauto.
  - intros r'. destruct (Hs r') as [Hc _]. destruct r'; exact Hc.
  - intros r' Hd. destruct (Hs r') as [_ Hw].
    rewrite (pending_perm r' _ _ Hperm), pending_cons, Hev in Hw.
    destruct r, r'; try congruence; simpl in *; exact Hw.
  - destruct (Hs r) as [_ Hw].
    rewrite (pending_perm r _ _ Hperm), pending_cons, Hev in Hw.
    destruct r; simpl in *; lia.
Qed.

Lemma live_record (B : Z) (a : action) (w : World) : Live B w -> Live B (record a w).
Proof. apply live_same; reflexivity. Qed.

Lemma live_set_results_data (B : Z) (l : list ShipData) (w : World) :
  Live B w -> Live B (set_results_data l w).
Proof. apply live_same; reflexivity. Qed.

Lemma live_set_arrival (B : Z) (a : arrival_gen) (w : World) :
  Live B w -> Live B (set_arrival a w).
Proof. apply live_same; reflexivity. Qed.

Lemma live_set_ships (B : Z) (l : list ShipFrame) (w : World) :
  Live B w -> Live B (set_ships l w).
Proof. apply live_same; reflexivity. Qed.

Lemma live_set_ship_gen (B : Z) (i : nat) (g : ship_gen) (w : World) :
  Live B w -> Live B (set_ship_gen i g w).
Proof.
  unfold set_ship_gen. destruct (ships w !! i); [apply live_set_ships|auto].
Qed.

Lemma live_finish (B : Z) (p : proc_id) (ok : bool) (w : World) :
  Live B w -> Live B (finish p ok w).
Proof. intros L. apply live_instant; [exact L|discriminate]. Qed.

(** *** The work that was started *)

Lemma started_work_app (u : Z) (l l' : list ShipFrame) :
  started_work u (l ++ l') = started_work u l + started_work u l'.
Proof. induction l as [|x l IH]; simpl; [reflexivity|]. rewrite IH. lia. Qed.

Lemma started_work_insert (u : Z) (l : list ShipFrame) (i : nat) (fr fr' : ShipFrame) :
  l !! i = Some fr ->
  started_work u (<[i:=fr']> l) = started_work u l - started u fr + started u fr'.
Proof.
  revert i. induction l as [|x l IH]; intros [|i] H; simpl in *; try discriminate.
  - injection H as ->. lia.
  - rewrite (IH i H). lia.
Qed.

Lemma ships_set_ship_gen (i : nat) (g : ship_gen) (w : World) (fr : ShipFrame) :
  ships w !! i = Some fr ->
  ships (set_ship_gen i g w) = <[i:=mkShipFrame (sf_row fr) g]> (ships w).
Proof. intros H. unfold set_ship_gen. rewrite H. reflexivity. Qed.

Lemma ships_finish (p : proc_id) (ok : bool) (w : World) : ships (finish p ok w) = ships w.
Proof. reflexivity. Qed.

Section Working.

Variable unload_time : Z.
Variable arrivals_df : list Row.
Variable horizon : vtime.
Variable T : Z.

Hypothesis work_nonneg : forall row, row ∈ arrivals_df -> 0 <= work unload_time row.
Hypothesis arrival_le : forall row, row ∈ arrivals_df -> row_arrival_time_minutes row <= T.

Local Abbreviation GInv := (GInv unload_time arrivals_df horizon).
Local Abbreviation Busy := (Busy unload_time T).

Lemma started_nonneg (w : World) :
  GInv None w -> 0 <= started_work unload_time (ships w).
Proof.
  intros G.
  assert (forall fr, fr ∈ ships w -> 0 <= work unload_time (sf_row fr)) as H.
  { intros fr [i Hi]%list_elem_of_lookup_1. apply work_nonneg.
    eapply ship_row_in; eauto. }
  induction (ships w) as [|fr l IH]; simpl; [lia|].
  assert (0 <= started unload_time fr).
  { unfold started. pose proof (H fr (list_elem_of_here _ _)).
    destruct (sf_gen fr); lia. }
  assert (0 <= started_work unload_time l)
    by (apply IH; intros fr' Hfr'; apply H, list_elem_of_further, Hfr').
  lia.
Qed.

Lemma busy_intro (B : Z) (w : World) :
  Live B w -> B <= T + started_work unload_time (ships w) -> Busy w.
Proof. intros L Hle. eapply live_mono; eauto. Qed.

Lemma busy_ship (w : World) (it : QItem) (q' : list QItem) (i : nat) :
  GInv None w -> Busy w -> heappop (queue w) = Some (it, q') ->
  q_event it <> Until -> (forall r j, q_event it <> Release r j) ->
  Busy (ship_process unload_time i (popped it q' w)).
Proof.
  intros G Bw Hpop Hev Hrel.
  pose proof (live_pop _ w it q' Bw Hpop Hev Hrel (g_eids G)) as L.
  set (B := T + started_work unload_time (ships w)) in *.
  set (w1 := popped it q' w) in *.
  assert (ships w1 = ships w) as Es by reflexivity.
  unfold ship_process.
  destruct (ships w1 !! i) as [fr|] eqn:Hi; [|exact L].
  assert (0 <= work unload_time (sf_row fr)) as Hw.
  { apply work_nonneg. rewrite Es in Hi. eapply ship_row_in; eauto. }
  unfold work in Hw.
  destruct (sf_gen fr) as [|d|d|d| |] eqn:Hg; try exact L.
  - apply (busy_intro B).
    + apply live_set_ship_gen, live_request, live_record, L.
    + rewrite (ships_set_ship_gen _ _ _ fr)
        by (rewrite ships_request, ships_record; exact Hi).
      rewrite ships_request, ships_record, (started_work_insert _ _ _ fr) by exact Hi.
      unfold started. simpl. rewrite Hg. rewrite ?Es. subst B. unfold work. lia.
  - apply (busy_intro B).
    + apply live_set_ship_gen, live_request, live_record, L.
    + rewrite (ships_set_ship_gen _ _ _ fr)
        by (rewrite ships_request, ships_record; exact Hi).
      rewrite ships_request, ships_record, (started_work_insert _ _ _ fr) by exact Hi.
      unfold started. simpl. rewrite Hg. rewrite ?Es. subst B. unfold work. lia.
  - destruct (_ <? 0) eqn:Eneg; [apply Z.ltb_lt in Eneg; lia|].
    apply (busy_intro (B + work unload_time (sf_row fr))).
    + apply live_set_ship_gen, live_schedule.
      * apply live_record. eapply live_mono; [|exact L]. unfold work. lia.
      * discriminate.
      * intros _. eexists. split; [reflexivity|].
        destruct L as [_ [Hn _]]. simpl in *. unfold work. lia.
    + rewrite (ships_set_ship_gen _ _ _ fr)
        by (rewrite ships_schedule, ships_record; exact Hi).
      rewrite ships_schedule, ships_record, (started_work_insert _ _ _ fr) by exact Hi.
      unfold started. simpl. rewrite Hg. rewrite ?Es. subst B. unfold work. lia.
  - apply (busy_intro B).
    + apply live_finish, live_set_ship_gen, live_record, live_set_results_data,
        live_record, live_release, live_release, live_record, L.
    + rewrite ships_finish.
      rewrite (ships_set_ship_gen _ _ _ fr); [|exact Hi].
      change (ships (record _ _)) with (ships w1).
      rewrite (started_work_insert _ _ _ fr) by exact Hi.
      unfold started. simpl. rewrite Hg. rewrite ?Es. subst B. unfold work. lia.
Qed.

Lemma live_arrival_loop (B : Z) (rows : list Row) (w : World) :
  Live B w -> T <= B -> (forall row, row ∈ rows -> row ∈ arrivals_df) ->
  Live B (arrival_loop rows w) /\ ships (arrival_loop rows w) = ships w.
Proof.
  intros L HB Hin. unfold arrival_loop.
  destruct rows as [|row rest].
  - split; [|reflexivity]. apply live_finish, live_set_arrival, L.
  - destruct (_ <? 0) eqn:Ed.
    + split; [|reflexivity]. apply live_finish, live_set_arrival, L.
    + split; [|reflexivity]. apply live_set_arrival, live_schedule; [exact L|discriminate|].
      intros _. eexists. split; [reflexivity|].
      pose proof (arrival_le row (Hin row (list_elem_of_here _ _))). lia.
Qed.

Lemma busy_arrival (w : World) (it : QItem) (q' : list QItem) :
  GInv None w -> Busy w -> heappop (queue w) = Some (it, q') ->
  q_event it <> Until -> (forall r j, q_event it <> Release r j) ->
  Busy (arrival_process (popped it q' w)).
Proof.
  intros G Bw Hpop Hev Hrel.
  pose proof (live_pop _ w it q' Bw Hpop Hev Hrel (g_eids G)) as L.
  pose proof (started_nonneg w G) as H0.
  set (B := T + started_work unload_time (ships w)) in *.
  set (w1 := popped it q' w) in *.
  assert (None <> Some ArrivalProc) as Hd by discriminate.
  pose proof (g_arrival G Hd) as Ha. unfold arrival_inv in Ha.
  unfold arrival_process. change (arrival w1) with (arrival w).
  destruct (arrival w) as [rows|row rest| |]; try exact L.
  - destruct Ha as (-> & _).
    destruct (live_arrival_loop B arrivals_df w1 L ltac:(lia) ltac:(auto)) as [L' Es].
    apply (busy_intro B); [exact L'|]. rewrite Es. subst B. simpl. lia.
  - destruct Ha as (Hrows & _).
    assert (Live B (spawn_ship row w1)) as Lsp.
    { unfold spawn_ship. apply live_instant; [|discriminate]. apply live_set_ships, L. }
    destruct (live_arrival_loop B rest (spawn_ship row w1) Lsp ltac:(lia)) as [L' Es].
    { intros r Hr. rewrite Hrows. apply elem_of_app. right. apply list_elem_of_further, Hr. }
    apply (busy_intro B); [exact L'|]. rewrite Es. unfold spawn_ship. simpl.
    rewrite started_work_app. subst B. simpl. unfold started. simpl. lia.
Qed.

(** Every step of the loop keeps the port working. *)
Lemma busy_step (w w' : World) :
  GInv None w -> Busy w -> step unload_time w = Stepped w' -> Busy w'.
Proof.
  intros G Bw Hs. unfold step in Hs.
  destruct (heappop (queue w)) as [[it q']|] eqn:Hpop; [|discriminate].
  destruct (q_event it) as [p|p|r i|r i|p [|]|] eqn:Ev; try discriminate;
    injection Hs as <-.
  - destruct p as [|i]; simpl.
    + apply busy_arrival; auto; rewrite Ev; discriminate.
    + apply busy_ship; auto; rewrite Ev; discriminate.
  - destruct p as [|i]; simpl.
    + apply busy_arrival; auto; rewrite Ev; discriminate.
    + apply busy_ship; auto; rewrite Ev; discriminate.
  - simpl. apply busy_ship; auto; rewrite Ev; discriminate.
  - pose proof (live_pop_release _ w it q' r i Bw Hpop Ev (g_eids G)) as L.
    apply (busy_intro _ _ L). rewrite ships_trigger_put. simpl. lia.
  - apply (live_pop _ w it q' Bw Hpop); try (rewrite Ev; discriminate). apply (g_eids G).
Qed.

(** *** When the stop event is popped *)

Lemma total_work_app (u : Z) (l l' : list Row) :
  total_work u (l ++ l') = total_work u l + total_work u l'.
Proof. induction l as [|x l IH]; simpl; [reflexivity|]. rewrite IH. lia. Qed.

Lemma total_work_nonneg (u : Z) (l : list Row) :
  (forall row, row ∈ l -> 0 <= work u row) -> 0 <= total_work u l.
Proof.
  induction l as [|x l IH]; intros H; simpl; [lia|].
  pose proof (H x (list_elem_of_here _ _)).
  assert (0 <= total_work u l) by (apply IH; intros r Hr; apply H, list_elem_of_further, Hr).
  lia.
Qed.

Lemma started_le_work (u : Z) (l : list ShipFrame) :
  (forall fr, fr ∈ l -> 0 <= work u (sf_row fr)) ->
  started_work u l <= total_work u (sf_row <$> l).
Proof.
  induction l as [|x l IH]; intros H; simpl; [lia|].
  pose proof (H x (list_elem_of_here _ _)).
  assert (started_work u l <= total_work u (sf_row <$> l))
    by (apply IH; intros r Hr; apply H, list_elem_of_further, Hr).
  assert (started u x <= work u (sf_row x)) by (unfold started; destruct (sf_gen x); lia).
  change (list_fmap ShipFrame Row sf_row l) with (sf_row <$> l). lia.
Qed.

Lemma started_le_total (w : World) :
  GInv None w -> started_work unload_time (ships w) <= total_work unload_time arrivals_df.
Proof.
  intros G. destruct (ships_rows_prefix _ _ _ w G) as [rest Hrows].
  assert (forall row, row ∈ (sf_row <$> ships w) ++ rest -> 0 <= work unload_time row) as Hall
    by (rewrite <- Hrows; exact work_nonneg).
  rewrite Hrows, total_work_app.
  assert (0 <= total_work unload_time rest).
  { apply total_work_nonneg. intros row Hrow. apply Hall, elem_of_app. right. exact Hrow. }
  assert (started_work unload_time (ships w) <= total_work unload_time (sf_row <$> ships w)).
  { apply started_le_work. intros fr Hfr. apply Hall, elem_of_app. left.
    apply list_elem_of_fmap_2. exact Hfr. }
  lia.
Qed.

Lemma quiet_at_stop (w : World) (it : QItem) (q' : list QItem) (H : Z) :
  GInv None w -> Busy w -> heappop (queue w) = Some (it, q') -> q_event it = Until ->
  horizon = Fin H -> T + total_work unload_time arrivals_df < H ->
  quiet w.
Proof.
  intros G [_ [_ Hq]] Hpop Ev Hh Hlt ev Hev.
  apply list_elem_of_fmap in Hev as (y & -> & Hy).
  destruct (decide (q_event y = Until)) as [E | E]; [exact E|exfalso].
  destruct (Hq y Hy E) as (t & Ht & Hle).
  pose proof (stop_is_least _ _ _ w it q' H G Hpop Ev Hh y t Hy Ht).
  pose proof (started_le_total w G). lia.
Qed.

Lemma quiet_pending (w : World) (r : resource_id) :
  quiet w -> pending_releases r (queue w) = 0%nat.
Proof.
  unfold quiet, events, pending_releases. induction (queue w) as [|y q IH]; intros Hq.
  - reflexivity.
  - pose proof (Hq (q_event y) (list_elem_of_here _ _)) as Ey.
    rewrite filter_cons_False by (rewrite Ey; destruct r; discriminate).
    apply IH. intros ev Hev. apply Hq. rewrite fmap_cons. apply list_elem_of_further, Hev.
Qed.

Lemma quiet_no_event (w : World) (ev : event) :
  quiet w -> ev ∈ events w -> ev <> Until -> False.
Proof. intros Hq Hev Hne. exact (Hne (Hq ev Hev)). Qed.

Lemma quiet_unscheduled (w : World) (ev : event) (t : vtime) :
  quiet w -> scheduled ev t w -> ev <> Until -> False.
Proof.
  intros Hq (y & Hy & <- & _) Hne. apply (quiet_no_event w (q_event y) Hq); [|exact Hne].
  apply list_elem_of_fmap_2. exact Hy.
Qed.

Lemma user_frame (w : World) (r : resource_id) (m : nat) :
  GInv None w -> m ∈ users (resource r w) ->
  Acquire r m ∈ acts m (trace w) /\ (Free r m ∉ acts m (trace w))
  /\ exists fr, ships w !! m = Some fr /\ ship_inv unload_time w m fr.
Proof.
  intros G Hm. destruct (g_users G r) as [_ Hu]. apply Hu in Hm as [Hacq Hfree].
  assert (Acquire r m ∈ acts m (trace w)) as Ha by (apply elem_of_acts; split; [reflexivity|exact Hacq]).
  split; [exact Ha|]. split.
  { intros Hc. apply Hfree. eapply in_acts_trace; eauto. }
  destruct (ships w !! m) as [fr|] eqn:Hfr.
  - exists fr. split; [reflexivity|]. apply (g_ships G m fr Hfr). discriminate.
  - exfalso. apply lookup_ge_None in Hfr. rewrite (g_acts G m Hfr) in Ha. inversion Ha.
Qed.

Ltac not_in_list H :=
  unfold tr_failed, tr_done, tr_leave, tr_secured, tr_docked, tr_arrived in H;
  simpl in H;
  repeat (apply elem_of_cons in H as [H | H]; [discriminate H|]);
  inversion H.

(** Nobody holds a unit of [r] when the queue is quiet (for the berths:
    and nobody waits for a crane). *)
Lemma quiet_idle (w : World) (r : resource_id) :
  GInv None w -> quiet w ->
  (r = Berths -> put_queue (cranes w) = []) ->
  users (resource r w) = [].
Proof.
  intros G Hq Hcr.
  destruct (users (resource r w)) as [|m l] eqn:Eu; [reflexivity|exfalso].
  assert (m ∈ users (resource r w)) as Hm by (rewrite Eu; apply list_elem_of_here).
  destruct (user_frame w r m G Hm) as (Ha & Hf & fr & Hfr & Hs).
  unfold ship_inv in Hs.
  destruct (sf_gen fr) as [|d|d|d| |].
  - destruct Hs as [E _]. rewrite E in Ha. inversion Ha.
  - destruct Hs as (a & _ & _ & [[E _] | [_ Hev]]).
    + rewrite E in Ha. destruct r; not_in_list Ha.
    + eapply quiet_no_event; eauto; discriminate.
  - destruct Hs as (a & b & _ & _ & _ & [[E Hpq] | [_ Hev]]).
    + destruct r.
      * simpl in Hpq. rewrite (Hcr eq_refl) in Hpq. inversion Hpq.
      * rewrite E in Ha. not_in_list Ha.
    + eapply quiet_no_event; eauto; discriminate.
  - destruct Hs as (a & b & c & _ & _ & _ & _ & _ & Hsch).
    eapply quiet_unscheduled; eauto; discriminate.
  - destruct Hs as (_ & a & b & c & e & E). apply Hf. rewrite E.
    unfold tr_done, tr_leave. destruct r; set_solver.
  - destruct Hs as (_ & _ & a & b & c & E). apply Hf. rewrite E.
    unfold tr_failed, tr_leave. destruct r; set_solver.
Qed.

Lemma quiet_no_queue (w : World) (r : resource_id) :
  Busy w -> quiet w -> users (resource r w) = [] -> put_queue (resource r w) = [].
Proof.
  intros [Hs _] Hq Hu. destruct (Hs r) as [Hc Hw].
  rewrite (quiet_pending w r Hq) in Hw. unfold wanting, free_units in Hw.
  rewrite Hu in Hw. simpl in Hw.
  destruct (put_queue (resource r w)) as [|j l]; [reflexivity|]. simpl in Hw. lia.
Qed.

(** When the stop event is popped every ship that arrived has left. *)
Lemma all_returned_at_stop (w : World) (it : QItem) (q' : list QItem) (H : Z) :
  GInv None w -> Busy w -> heappop (queue w) = Some (it, q') -> q_event it = Until ->
  horizon = Fin H -> T + total_work unload_time arrivals_df < H ->
  all_returned (ships w).
Proof.
  intros G Bw Hpop Ev Hh Hlt.
  pose proof (quiet_at_stop w it q' H G Bw Hpop Ev Hh Hlt) as Hq.
  assert (put_queue (cranes w) = []) as Hpc.
  { apply (quiet_no_queue w Cranes Bw Hq). apply (quiet_idle w Cranes G Hq). discriminate. }
  assert (put_queue (berths w) = []) as Hpb.
  { apply (quiet_no_queue w Berths Bw Hq). apply (quiet_idle w Berths G Hq). auto. }
  intros fr [j Hj]%list_elem_of_lookup_1.
  assert (None <> Some (ShipProc j)) as Hd by discriminate.
  pose proof (g_ships G j fr Hj Hd) as Hs. unfold ship_inv in Hs.
  destruct (sf_gen fr) as [|d|d|d| |] eqn:Hg; [exfalso..|reflexivity|exfalso].
  - destruct Hs as [_ Hev]. eapply quiet_no_event; eauto; discriminate.
  - destruct Hs as (a & _ & _ & [[_ Hpq] | [_ Hev]]).
    + simpl in Hpq. rewrite Hpb in Hpq. inversion Hpq.
    + eapply quiet_no_event; eauto; discriminate.
  - destruct Hs as (a & b & _ & _ & _ & [[_ Hpq] | [_ Hev]]).
    + simpl in Hpq. rewrite Hpc in Hpq. inversion Hpq.
    + eapply quiet_no_event; eauto; discriminate.
  - destruct Hs as (a & b & c & _ & _ & _ & _ & _ & Hsch).
    eapply quiet_unscheduled; eauto; discriminate.
  - destruct Hs as (_ & Hneg & _).
    pose proof (work_nonneg _ (ship_row_in _ _ _ w j fr G Hj)). unfold work in *. lia.
Qed.

End Working.

Lemma all_returned_count (l : list ShipFrame) :
  all_returned l -> returned_count l = length l.
Proof.
  unfold all_returned, returned_count. induction l as [|fr l IH]; intros H; simpl; [reflexivity|].
  rewrite (H fr (list_elem_of_here _ _)).
  rewrite IH; [reflexivity|]. intros fr' Hfr'. apply H, list_elem_of_further, Hfr'.
Qed.

Lemma returned_count_le (l : list ShipFrame) : (returned_count l <= length l)%nat.
Proof.
  unfold returned_count. induction l as [|fr l IH]; simpl; [lia|].
  destruct (sf_gen fr); lia.
Qed.

(** * Properties *)

(** ** Concrete runs *)

(** C3: with one berth, one crane, two minutes per container and the
    arrivals (1,0,5) and (2,0,3), ship 1 docks and gets its crane at 0 and
    is unloaded and gone at 10; ship 2 docks and gets its crane at 10 and is
    unloaded and gone at 16; ship 2 waited 10 for its berth and 0 for its
    crane. *)
Theorem scenario_two_ships_one_berth (previous : list ShipData) :
  exists w k1 k2,
    run_simulation 1 1 2 [mkRow 1 0 5; mkRow 2 0 3] previous
      = Completed w (Some [k1; k2])
    /\ results_data w =
         [mkShipData 1 5 0 (Some 0) (Some 0) (Some 10) (Some 10);
          mkShipData 2 3 0 (Some 10) (Some 10) (Some 16) (Some 16)]
    /\ kpi_data k1 = mkShipData 1 5 0 (Some 0) (Some 0) (Some 10) (Some 10)
    /\ kpi_data k2 = mkShipData 2 3 0 (Some 10) (Some 10) (Some 16) (Some 16)
    /\ wait_time_for_berth k2 = Some 10
    /\ wait_time_for_crane k2 = Some 0.
Proof.
  eexists _, _, _. split; [vm_compute; reflexivity|].
  repeat split.
Qed.

(** The world in which a run on the empty table ends: the arrival process
    was started and returned at once, its [Process] event is still in the
    queue when the stop event is popped. *)
Lemma empty_run (num_berths num_cranes unload_time : Z) (previous : list ShipData) :
  0 < num_berths -> 0 < num_cranes ->
  run_simulation num_berths num_cranes unload_time [] previous
  = Completed
      (mkWorld 0 [mkQItem (Fin 0) NORMAL 2 (Process ArrivalProc true)] 3
         (mkResource num_berths [] []) (mkResource num_cranes [] [])
         ArrReturned [] [] [])
      None.
Proof.
  intros Hb Hc. unfold run_simulation.
  destruct (num_berths <=? 0) eqn:Eb; [lia|].
  destruct (num_cranes <=? 0) eqn:Ec; [lia|].
  reflexivity.
Qed.

(** C8: an empty arrival table is no error: the run returns without raising,
    no ship is spawned, nothing is appended to the results and no result
    file is written. *)
Theorem empty_arrivals_complete (num_berths num_cranes unload_time : Z)
    (previous : list ShipData) :
  0 < num_berths -> 0 < num_cranes ->
  exists w,
    run_simulation num_berths num_cranes unload_time [] previous = Completed w None
    /\ results_data w = [] /\ ships w = [] /\ trace w = [].
Proof.
  intros Hb Hc. eexists. split; [apply empty_run; assumption|].
  simpl. repeat split.
Qed.

Lemma empty_arrivals_complete_witness :
  exists w, run_simulation 2 2 2 [] [] = Completed w None
    /\ results_data w = [] /\ ships w = [] /\ trace w = [].
Proof. apply (empty_arrivals_complete 2 2 2 []); lia. Defined.


(** ** Properties of every run *)

Lemma results_record_ok (num_berths num_cranes unload_time : Z)
    (arrivals_df : list Row) (previous : list ShipData) (d : ShipData) :
  d ∈ results_of (run_simulation num_berths num_cranes unload_time arrivals_df previous) ->
  record_ok unload_time d.
Proof.
  intros Hd.
  assert (results_of (run_simulation num_berths num_cranes unload_time arrivals_df previous)
          = results_data (world_of (run_simulation num_berths num_cranes unload_time
                                      arrivals_df previous))) as E
    by (destruct (run_simulation _ _ _ _ _); reflexivity).
  rewrite E in Hd. clear E.
  destruct (run_simulation_inv num_berths num_cranes unload_time arrivals_df previous)
    as [E | (w0 & G & Hobs)].
  - destruct E as (E & _). rewrite E in Hd. inversion Hd.
  - destruct Hobs as (Hr & _). rewrite Hr in Hd. exact (g_results G d Hd).
Qed.

Lemma final_trace_ok (num_berths num_cranes unload_time : Z)
    (arrivals_df : list Row) (previous : list ShipData) :
  trace_ok (trace (world_of (run_simulation num_berths num_cranes unload_time
                               arrivals_df previous))).
Proof.
  destruct (run_simulation_inv num_berths num_cranes unload_time arrivals_df previous)
    as [E | (w0 & G & Hobs)].
  - destruct E as (_ & E & _). rewrite E. constructor.
  - destruct Hobs as (_ & Ht & _). rewrite Ht. exact (g_trace G).
Qed.





(** C5: in the history of every run, a berth is given back just after the
    crane of the same ship, by a ship that took the berth before and still
    holds it; and a dictionary is appended just after the ship stamped its
    unloading complete, gave back its crane, gave back its berth and stamped
    its departure, in this order and with nothing in between. *)
Theorem crane_released_before_berth (num_berths num_cranes unload_time : Z)
    (arrivals_df : list Row) (previous : list ShipData)
    (i : nat) (pre post : list action) :
  let tr := trace (world_of (run_simulation num_berths num_cranes unload_time
                               arrivals_df previous)) in
  (tr = pre ++ Free Berths i :: post ->
     ends_with [Free Cranes i] pre
     /\ Acquire Berths i ∈ pre /\ Free Berths i ∉ pre)
  /\ (tr = pre ++ Emit i :: post ->
        exists t, ends_with [Stamp i UNLOADING_COMPLETE t; Free Cranes i;
                             Free Berths i; Stamp i DEPARTED t] pre).
Proof.
  intros tr.
  pose proof (final_trace_ok num_berths num_cranes unload_time arrivals_df previous) as Hok.
  fold tr in Hok. split; intros E.
  - exact (trace_ok_split tr Hok pre (Free Berths i) post E).
  - exact (trace_ok_split tr Hok pre (Emit i) post E).
Qed.

Lemma crane_released_before_berth_witness :
  (ends_with [Free Cranes 0%nat]
     [Stamp 0 ARRIVED 0; Acquire Berths 0; Stamp 1 ARRIVED 0; Stamp 0 DOCKED 0;
      Acquire Cranes 0; Stamp 0 CRANE_SECURED 0; Stamp 0 UNLOADING_COMPLETE 10;
      Free Cranes 0]
   /\ Acquire Berths 0%nat ∈
        [Stamp 0 ARRIVED 0; Acquire Berths 0; Stamp 1 ARRIVED 0; Stamp 0 DOCKED 0;
         Acquire Cranes 0; Stamp 0 CRANE_SECURED 0; Stamp 0 UNLOADING_COMPLETE 10;
         Free Cranes 0]
   /\ Free Berths 0%nat ∉
        [Stamp 0 ARRIVED 0; Acquire Berths 0; Stamp 1 ARRIVED 0; Stamp 0 DOCKED 0;
         Acquire Cranes 0; Stamp 0 CRANE_SECURED 0; Stamp 0 UNLOADING_COMPLETE 10;
         Free Cranes 0])
  /\ exists t,
       ends_with [Stamp 0%nat UNLOADING_COMPLETE t; Free Cranes 0%nat;
                  Free Berths 0%nat; Stamp 0%nat DEPARTED t]
         [Stamp 0 ARRIVED 0; Acquire Berths 0; Stamp 1 ARRIVED 0; Stamp 0 DOCKED 0;
          Acquire Cranes 0; Stamp 0 CRANE_SECURED 0; Stamp 0 UNLOADING_COMPLETE 10;
          Free Cranes 0; Free Berths 0; Stamp 0 DEPARTED 10].
Proof.
  split.
  - apply (crane_released_before_berth 1 1 2 [mkRow 1 0 5; mkRow 2 0 3] [] 0%nat
             [Stamp 0 ARRIVED 0; Acquire Berths 0; Stamp 1 ARRIVED 0; Stamp 0 DOCKED 0;
              Acquire Cranes 0; Stamp 0 CRANE_SECURED 0; Stamp 0 UNLOADING_COMPLETE 10;
              Free Cranes 0]
             [Stamp 0 DEPARTED 10; Emit 0; Acquire Berths 1; Stamp 1 DOCKED 10;
              Acquire Cranes 1; Stamp 1 CRANE_SECURED 10; Stamp 1 UNLOADING_COMPLETE 16;
              Free Cranes 1; Free Berths 1; Stamp 1 DEPARTED 16; Emit 1]).
    vm_compute. reflexivity.
  - apply (crane_released_before_berth 1 1 2 [mkRow 1 0 5; mkRow 2 0 3] [] 0%nat
             [Stamp 0 ARRIVED 0; Acquire Berths 0; Stamp 1 ARRIVED 0; Stamp 0 DOCKED 0;
              Acquire Cranes 0; Stamp 0 CRANE_SECURED 0; Stamp 0 UNLOADING_COMPLETE 10;
              Free Cranes 0; Free Berths 0; Stamp 0 DEPARTED 10]
             [Acquire Berths 1; Stamp 1 DOCKED 10;
              Acquire Cranes 1; Stamp 1 CRANE_SECURED 10; Stamp 1 UNLOADING_COMPLETE 16;
              Free Cranes 1; Free Berths 1; Stamp 1 DEPARTED 16; Emit 1]).
    vm_compute. reflexivity.
Defined.

(** ** The horizon, unsorted tables and cargo sizes *)

Lemma nondecreasing_cons (x : Z) (l : list Z) :
  nondecreasing (x :: l) -> nondecreasing l /\ forall y, y ∈ l -> x <= y.
Proof.
  revert x. induction l as [|z l IH]; intros x H.
  - split; [intros i a b Ha; destruct i; discriminate|]. intros y Hy. inversion Hy.
  - assert (nondecreasing (z :: l)) as Hz.
    { intros i a b Ha Hb. exact (H (S i) a b Ha Hb). }
    split; [exact Hz|].
    pose proof (H 0%nat x z eq_refl eq_refl) as Hxz.
    destruct (IH z Hz) as [_ Hall].
    intros y [-> | Hy]%elem_of_cons; [exact Hxz|]. specialize (Hall y Hy). lia.
Qed.

Lemma nondecreasing_ascending (lo : Z) (l : list Z) :
  nondecreasing l -> (forall x, x ∈ l -> lo <= x) -> ascending lo l.
Proof.
  revert lo. induction l as [|x l IH]; intros lo H Hlo; simpl; [exact I|].
  destruct (nondecreasing_cons x l H) as [H1 H2].
  split; [apply Hlo, list_elem_of_here|]. apply IH; assumption.
Qed.

Lemma ascending_nondecreasing (lo : Z) (l : list Z) :
  ascending lo l -> nondecreasing l.
Proof.
  revert lo. induction l as [|x l IH]; intros lo H i a b Ha Hb.
  - discriminate.
  - destruct H as [_ H]. destruct i as [|i].
    + simpl in Ha. injection Ha as <-. destruct l as [|y l]; [discriminate|].
      simpl in Hb. injection Hb as <-. simpl in H. tauto.
    + exact (IH x H i a b Ha Hb).
Qed.

Lemma sorted_rows_ascending (rows : list Row) :
  nondecreasing (arr_times rows) ->
  (forall row, row ∈ rows -> 0 <= row_arrival_time_minutes row) ->
  ascending 0 (arr_times rows).
Proof.
  intros Hs Hpos. apply nondecreasing_ascending; [exact Hs|].
  intros x Hx. apply list_elem_of_fmap in Hx as (row & -> & Hrow). auto.
Qed.










(** ** Counting the records *)

Lemma valid_rows_all (rows : list Row) :
  (forall row, row ∈ rows -> 0 < row_cargo_containers row) -> valid_rows rows = rows.
Proof.
  unfold valid_rows. induction rows as [|r rows IH]; intros H; [reflexivity|].
  rewrite filter_cons_True by (apply H, list_elem_of_here).
  f_equal. apply IH. intros row Hrow. apply H, list_elem_of_further, Hrow.
Qed.

Lemma busy_start (num_berths num_cranes unload_time T : Z) (rows : list Row) :
  0 < num_berths -> 0 < num_cranes -> 0 <= T ->
  Busy unload_time T (start_world num_berths num_cranes rows).
Proof.
  intros Hb Hc HT. unfold Busy, start_world.
  change (ships _) with (@nil ShipFrame). simpl started_work. rewrite Z.add_0_r.
  apply live_schedule.
  - apply live_instant; [|discriminate]. split.
    + intros r. destruct r; simpl; unfold wanting, free_units; simpl; lia.
    + split; [simpl; lia|]. intros it Hit. inversion Hit.
  - discriminate.
  - intros Hne. contradiction.
Qed.



